(** * The oscilloscope renderer of the Moog synth prototype

    A shallow embedding of [drawWaveform] and of the effect that owns it, in
    [src/app/prototypes/moog-synth/page.tsx] (lines 33-171).

    Numbers.  The source computes on JavaScript numbers.  They are modelled
    here as the real numbers they approximate: [+], [-], [*], [/] are exact,
    [Math.sin] is [sin], [Math.PI] is [PI].  Rounding, infinities and NaN are
    outside the model; every theorem below is a statement about the exact
    values of the formulas the source evaluates.

    Effects.  The canvas is modelled by the list of drawing commands issued
    on it, the refresh scheduler by its list of pending handles, and the
    React refs by fields of a host record that is passed through.

    The second half covers the rest of the page: the note handlers
    ([playNote], [stopNote], [handleKeyPress], [handleKeyRelease], the
    keyboard listeners), the [Knob] component, and the gain values and
    envelope times [playNote] computes (lines 184-395 and 615-713). *)

From Stdlib Require Import String Reals Lra Lia ZArith Bool List Floats Sorted.
Import ListNotations.

Open Scope R_scope.

(** ** The host's [Math] functions and the remainder operator *)

Module JsMath.

(** [Math.sign]: 1, -1 or 0. *)
Definition sign (x : R) : R :=
  if Rlt_dec 0 x then 1 else if Rlt_dec x 0 then -1 else 0.

(** Rounding towards zero, the quotient the [%] operator discards. *)
Definition trunc (x : R) : Z :=
  if Rle_dec 0 x then Zfloor x else Zceil x.

(** [x % y]: the remainder has the sign of the dividend. *)
Definition rem (x y : R) : R := x - y * IZR (trunc (x / y)).

(** [Math.max] and [Math.abs]. *)
Definition max : R -> R -> R := Rmax.
Definition abs : R -> R := Rabs.

End JsMath.

(** ** Sample synthesis (lines 72-117) *)

(** [const samples = 900]. *)
Definition samples : nat := 900.

(** The state the effect closes over: [osc1Freq], [waveform], [filterCutoff].
    [waveform] is a string at run time; the [switch] compares it with the
    four literals and has a [default] branch. *)
Record Props : Type := mkProps {
  osc1Freq : R;
  waveform : string;
  filterCutoff : R
}.

(** [const t = (i / samples) * Math.PI * 4 + time * freq * 0.01]. *)
Definition phase (i : nat) (time freq : R) : R :=
  (INR i / INR samples) * PI * 4 + time * freq * 0.01.

(** The [switch (waveform)] of lines 89-104. *)
Definition waveSample (wf : string) (t : R) : R :=
  if String.eqb wf "sine" then sin t
  else if String.eqb wf "square" then JsMath.sign (sin t)
  else if String.eqb wf "sawtooth" then 2 * JsMath.rem (t / (2 * PI)) 1 - 1
  else if String.eqb wf "triangle" then
    2 * JsMath.abs (2 * JsMath.rem (t / (2 * PI)) 1 - 1) - 1
  else sin t.

(** [activeNoteFrequencies.length > 0 ? activeNoteFrequencies : [osc1Freq]]. *)
Definition scopeFrequencies (activeNoteFrequencies : list R) (osc1 : R)
  : list R :=
  match activeNoteFrequencies with
  | [] => [osc1]
  | _ :: _ => activeNoteFrequencies
  end.

(** The inner loop: [let y = 0; for (const freq of ...) y += sample]. *)
Definition mixSum (wf : string) (time : R) (freqs : list R) (i : nat) : R :=
  fold_left (fun y freq => y + waveSample wf (phase i time freq)) freqs 0.

(** [y /= Math.max(1, scopeFrequencies.length)]: the value before the filter
    step. *)
Definition mixed (wf : string) (time : R) (freqs : list R) (i : nat) : R :=
  mixSum wf time freqs i / JsMath.max 1 (INR (length freqs)).

(** [const filterEffect = Math.max(0, 1 - (filterCutoff / 5000))]. *)
Definition filterEffect (cutoff : R) : R := JsMath.max 0 (1 - cutoff / 5000).

(** The factor of [y *= (1 - filterEffect * 0.5)]. *)
Definition attenuation (cutoff : R) : R := 1 - filterEffect cutoff * 0.5.

(** The value stored in [raw[i]]. *)
Definition rawAt (wf : string) (cutoff time : R) (freqs : list R) (i : nat)
  : R :=
  mixed wf time freqs i * attenuation cutoff.

(** The loop [for (let i = 0; i <= samples; i++)] filling [raw]. *)
Definition rawBuffer (wf : string) (cutoff time : R) (freqs : list R)
  : list R :=
  map (rawAt wf cutoff time freqs) (seq 0 (samples + 1)).

(** Lines 77-117 as one step, from the active set and the props. *)
Definition synthesize (p : Props) (time : R) (activeNoteFrequencies : list R)
  : list R :=
  rawBuffer (waveform p) (filterCutoff p) time
            (scopeFrequencies activeNoteFrequencies (osc1Freq p)).

(** ** Smoothing (lines 119-134) *)

(** [const windowSize = 6]. *)
Definition windowSize : Z := 6.

(** The values [a, a+1, ...] a counting loop goes through, [m] of them. *)
Fixpoint zseq (a : Z) (m : nat) : list Z :=
  match m with
  | O => []
  | S m' => a :: zseq (a + 1) m'
  end.

(** [for (let k = -windowSize; k <= windowSize; k++)]. *)
Definition kRange (w : Z) : list Z := zseq (- w) (Z.to_nat (2 * w + 1)).

(** One pass of the inner loop body on the pair [(sum, count)]. *)
Definition smoothStep (N : nat) (raw : list R) (i : nat)
    (acc : R * nat) (k : Z) : R * nat :=
  let idx := (Z.of_nat i + k)%Z in
  if ((0 <=? idx)%Z && (idx <=? Z.of_nat N)%Z)%bool
  then (fst acc + nth (Z.to_nat idx) raw 0, S (snd acc))
  else acc.

(** [smoothed[i] = sum / Math.max(1, count)]. *)
Definition smoothAt (N : nat) (w : Z) (raw : list R) (i : nat) : R :=
  let acc := fold_left (smoothStep N raw i) (kRange w) (0, O) in
  fst acc / JsMath.max 1 (INR (snd acc)).

(** The outer loop filling [smoothed], for a buffer of [N + 1] samples. *)
Definition smoothBuffer (N : nat) (w : Z) (raw : list R) : list R :=
  map (smoothAt N w raw) (seq 0 (N + 1)).

(** The smoothing as the source runs it. *)
Definition smoothed (raw : list R) : list R :=
  smoothBuffer samples windowSize raw.

(** [const toCanvasY = (y) => (canvas.height / 2) + (y * (canvas.height / 2) * 0.8)].
    A canvas height is an unsigned integer. *)
Definition toCanvasY (height : nat) (y : R) : R :=
  (INR height / 2) + (y * (INR height / 2) * 0.8).

(** ** The drawing surface, the refs and the refresh scheduler *)

(** The calls made on the 2D context, in the order they are made. *)
Inductive DrawCmd : Type :=
| ClearRect (x y w h : R)
| SetFillStyle (colour : string)
| FillRect (x y w h : R)
| SetStrokeStyle (colour : string)
| SetLineWidth (w : R)
| SetLineJoin (j : string)
| SetLineCap (c : string)
| BeginPath
| MoveTo (x y : R)
| LineTo (x y : R)
| QuadraticCurveTo (cpx cpy x y : R)
| Stroke.

(** What [drawWaveform] reads and writes outside its own locals:
    the canvas size, [activeNotesRef] (a [Map] from note name to frequency,
    kept in insertion order), [animationFrameRef] ([None] is [undefined]),
    the scheduler's next handle and pending requests, and the commands
    issued on the canvas so far. *)
Record Host : Type := mkHost {
  canvasWidth : nat;
  canvasHeight : nat;
  activeNotesRef : list (string * R);
  animationFrameRef : option nat;
  nextHandle : nat;
  pending : list nat;
  drawn : list DrawCmd
}.

(** [Array.from(activeNotesRef.current.values())]. *)
Definition activeNoteFrequencies (h : Host) : list R :=
  map snd (activeNotesRef h).

(** Lines 53-62: eleven horizontal grid lines. *)
Definition gridCommands (cw ch : nat) : list DrawCmd :=
  [SetStrokeStyle "#333"; SetLineWidth 1] ++
  flat_map (fun i =>
              let y := (INR ch / 10) * INR i in
              [BeginPath; MoveTo 0 y; LineTo (INR cw) y; Stroke])
           (seq 0 11).

(** The body of [for (let i = 1; i < samples; i++)], lines 144-152. *)
Definition curveSegment (cw ch : nat) (sm : list R) (i : nat) : DrawCmd :=
  let x := (INR cw / INR samples) * INR i in
  let y := toCanvasY ch (nth i sm 0) in
  let xNext := (INR cw / INR samples) * INR (i + 1) in
  let yNext := toCanvasY ch (nth (i + 1) sm 0) in
  QuadraticCurveTo x y ((x + xNext) / 2) ((y + yNext) / 2).

(** Lines 64-69 and 136-159: the trace through the smoothed samples. *)
Definition curveCommands (cw ch : nat) (sm : list R) : list DrawCmd :=
  [SetStrokeStyle "#00ff88"; SetLineWidth 2; SetLineJoin "round";
   SetLineCap "round"; BeginPath] ++
  [MoveTo 0 (toCanvasY ch (nth 0 sm 0))] ++
  map (curveSegment cw ch sm) (seq 1 (samples - 1)) ++
  [LineTo (INR cw) (toCanvasY ch (nth samples sm 0)); Stroke].

(** The commands of the early return, lines 47-51. *)
Definition blankCommands (cw ch : nat) : list DrawCmd :=
  [SetFillStyle "#1a1a1a"; FillRect 0 0 (INR cw) (INR ch)].

(** [requestAnimationFrame(drawWaveform)]: a fresh handle joins the pending
    requests; the handle is stored in [animationFrameRef.current]. *)
Definition requestAnimationFrame (h : Host) : Host :=
  mkHost (canvasWidth h) (canvasHeight h) (activeNotesRef h)
         (Some (nextHandle h)) (S (nextHandle h))
         (pending h ++ [nextHandle h]) (drawn h).

(** [cancelAnimationFrame(id)]: the request leaves the pending ones; an
    unknown handle changes nothing. *)
Definition cancelAnimationFrame (id : nat) (h : Host) : Host :=
  mkHost (canvasWidth h) (canvasHeight h) (activeNotesRef h)
         (animationFrameRef h) (nextHandle h)
         (filter (fun j => negb (Nat.eqb j id)) (pending h)) (drawn h).

(** Issuing commands on the canvas. *)
Definition issue (cmds : list DrawCmd) (h : Host) : Host :=
  mkHost (canvasWidth h) (canvasHeight h) (activeNotesRef h)
         (animationFrameRef h) (nextHandle h) (pending h) (drawn h ++ cmds).

(** [drawWaveform], lines 41-162.  [time] is [Date.now() * 0.001] as read on
    this call. *)
Definition drawWaveform (p : Props) (time : R) (h : Host) : Host :=
  let cw := canvasWidth h in
  let ch := canvasHeight h in
  let h1 := issue [ClearRect 0 0 (INR cw) (INR ch)] h in
  let freqs := activeNoteFrequencies h in
  let shouldVisualize := Nat.ltb 0 (length freqs) in
  if negb shouldVisualize then
    issue (blankCommands cw ch) h1
  else
    let raw := synthesize p time freqs in
    let sm := smoothed raw in
    requestAnimationFrame
      (issue (gridCommands cw ch ++ curveCommands cw ch sm) h1).

(** The effect body once the canvas and its context exist (line 164). *)
Definition mountEffect (p : Props) (time : R) (h : Host) : Host :=
  drawWaveform p time h.

(** The effect's cleanup, lines 166-170: a truthy handle is cancelled. *)
Definition cleanupEffect (h : Host) : Host :=
  match animationFrameRef h with
  | Some (S id) => cancelAnimationFrame (S id) h
  | _ => h
  end.

(** One display refresh: the scheduler takes the oldest pending request and
    runs its callback, which is [drawWaveform]. *)
Definition refresh (p : Props) (time : R) (h : Host) : Host :=
  match pending h with
  | [] => h
  | _ :: rest =>
      drawWaveform p time
        (mkHost (canvasWidth h) (canvasHeight h) (activeNotesRef h)
                (animationFrameRef h) (nextHandle h) rest (drawn h))
  end.

(** Successive refreshes, one per clock reading. *)
Definition refreshes (p : Props) (times : list R) (h : Host) : Host :=
  fold_left (fun h' t => refresh p t h') times h.

(** The commands one call of [drawWaveform] adds to the canvas. *)
Definition frame (p : Props) (time : R) (h : Host) : list DrawCmd :=
  skipn (length (drawn h)) (drawn (drawWaveform p time h)).

(** Whether a frame strokes a trace: the [#00ff88] stroke style is set. *)
Definition isTraceStyle (c : DrawCmd) : bool :=
  match c with
  | SetStrokeStyle s => String.eqb s "#00ff88"
  | _ => false
  end.

Definition drawsCurve (cmds : list DrawCmd) : bool := existsb isTraceStyle cmds.

(** The page as first rendered: a 600 x 180 canvas, no note held, OSC1 at
    440 Hz, sawtooth, cutoff 1000 Hz, nothing scheduled. *)
Definition initialProps : Props := mkProps 440 "sawtooth" 1000.

Definition initialHost : Host := mkHost 600 180 [] None 1 [] [].

(** ** The filter factor on binary64 numbers

    The factor involves no transcendental function, so it can also be
    evaluated on the machine numbers themselves. *)

Module Binary64.

(** [Math.max] on two numbers: NaN if either is NaN, and [+0] above [-0]. *)
Definition max64 (a b : float) : float :=
  if (PrimFloat.is_nan a || PrimFloat.is_nan b)%bool then PrimFloat.nan
  else if (a <? b)%float then b
  else if (b <? a)%float then a
  else if PrimFloat.get_sign a then b else a.

Definition filterEffect64 (cutoff : float) : float :=
  max64 0%float (1 - cutoff / 5000)%float.

Definition attenuation64 (cutoff : float) : float :=
  (1 - filterEffect64 cutoff * 0.5)%float.

End Binary64.

(** ** The clipped window, as the specification words it *)

(** The samples [raw[j]] for [j] from [i - w] to [i + w] that lie within
    [0 .. N]; the subtraction on [nat] clips at 0. *)
Definition clippedWindow (N w : nat) (raw : list R) (i : nat) : list R :=
  let lo := (i - w)%nat in
  let hi := Nat.min N (i + w) in
  firstn (hi + 1 - lo) (skipn lo raw).

(** The arithmetic mean of a list, summed from the left. *)
Definition mean (l : list R) : R := fold_left Rplus l 0 / INR (length l).

(** The vertical coordinates a command plots (control and end points). *)
Definition plottedYs (c : DrawCmd) : list R :=
  match c with
  | MoveTo _ y => [y]
  | LineTo _ y => [y]
  | QuadraticCurveTo _ cpy _ y => [cpy; y]
  | _ => []
  end.

(** The state of a running loop: one request is pending, its handle is the
    one kept in [animationFrameRef], and it is a handle the scheduler gave
    out (handles are positive). *)
Definition Looping (h : Host) : Prop :=
  exists id : nat,
    pending h = [id] /\ animationFrameRef h = Some id
    /\ (0 < id)%nat /\ (id < nextHandle h)%nat.

(** ** The rest of the page: notes, keys, knobs and the audio parameters *)

(** The horizontal coordinates a command plots. *)
Definition plottedXs (c : DrawCmd) : list R :=
  match c with
  | MoveTo x _ => [x]
  | LineTo x _ => [x]
  | QuadraticCurveTo cpx _ x _ => [cpx; x]
  | _ => []
  end.

(** A command that plots nothing outside the canvas. *)
Definition onCanvas (cw ch : nat) (c : DrawCmd) : Prop :=
  Forall (fun x => 0 <= x <= INR cw) (plottedXs c)
  /\ Forall (fun y => 0 <= y <= INR ch) (plottedYs c).

(** *** [Map] and [Set] of the host, in insertion order *)

Section JsMap.

Context {V : Type}.

(** [m.set(k, v)]: a key already present keeps its place and takes the new
    value; a new key goes last. *)
Fixpoint mapSet (k : string) (v : V) (m : list (string * V))
  : list (string * V) :=
  match m with
  | [] => [(k, v)]
  | (k', v') :: rest =>
      if String.eqb k' k then (k, v) :: rest
      else (k', v') :: mapSet k v rest
  end.

(** [m.delete(k)]. *)
Definition mapDelete (k : string) (m : list (string * V))
  : list (string * V) :=
  filter (fun e => negb (String.eqb (fst e) k)) m.

(** [m.has(k)]. *)
Definition mapHas (k : string) (m : list (string * V)) : bool :=
  existsb (fun e => String.eqb (fst e) k) m.

(** [m.get(k)], [None] for [undefined]. *)
Definition mapGet (k : string) (m : list (string * V)) : option V :=
  option_map snd (find (fun e => String.eqb (fst e) k) m).

End JsMap.

(** [s.has(x)], [new Set(s).add(x)] and [s.delete(x)] on a [Set<string>]. *)
Definition setHas (x : string) (s : list string) : bool :=
  existsb (String.eqb x) s.

Definition setAdd (x : string) (s : list string) : list string :=
  if setHas x s then s else s ++ [x].

Definition setDelete (x : string) (s : list string) : list string :=
  filter (fun y => negb (String.eqb y x)) s.

(** *** The state the note handlers read and write (lines 20-28) *)

(** The scope's host record (for [activeNotesRef]), [pressedKeys], whether
    [audioContextRef.current] is set, [oscillatorsRef], [gainNodesRef] and
    [activeNotesVersion].  Audio nodes are objects of the host; an oscillator
    or gain node is represented by the number of the [playNote] call that
    created it. *)
Record Synth : Type := mkSynth {
  host : Host;
  pressedKeys : list string;
  audioContextRef : bool;
  oscillatorsRef : list (string * nat);
  gainNodesRef : list (string * nat);
  nextNode : nat;
  activeNotesVersion : nat
}.

(** Writing [activeNotesRef.current]. *)
Definition withActiveNotes (notes : list (string * R)) (h : Host) : Host :=
  mkHost (canvasWidth h) (canvasHeight h) notes (animationFrameRef h)
         (nextHandle h) (pending h) (drawn h).

(** [playNote], lines 231-318, as far as the refs and the state go: without
    an audio context nothing happens; otherwise the three maps take the note
    and the version counter is bumped. *)
Definition playNote (frequency : R) (note : string) (s : Synth) : Synth :=
  if negb (audioContextRef s) then s
  else
    mkSynth (withActiveNotes (mapSet note frequency (activeNotesRef (host s)))
                             (host s))
            (pressedKeys s) (audioContextRef s)
            (mapSet note (nextNode s) (oscillatorsRef s))
            (mapSet note (nextNode s) (gainNodesRef s))
            (S (nextNode s))
            (S (activeNotesVersion s)).

(** [oscillator.onended], lines 312-317. *)
Definition onended (note : string) (s : Synth) : Synth :=
  mkSynth (withActiveNotes (mapDelete note (activeNotesRef (host s))) (host s))
          (pressedKeys s) (audioContextRef s)
          (mapDelete note (oscillatorsRef s))
          (mapDelete note (gainNodesRef s))
          (nextNode s)
          (S (activeNotesVersion s)).

(** [stopNote], lines 321-334: the ramp is scheduled on the gain node (in the
    host); the note leaves [activeNotesRef] if it is there. *)
Definition stopNote (note : string) (s : Synth) : Synth :=
  if mapHas note (activeNotesRef (host s)) then
    mkSynth (withActiveNotes (mapDelete note (activeNotesRef (host s)))
                             (host s))
            (pressedKeys s) (audioContextRef s)
            (oscillatorsRef s) (gainNodesRef s) (nextNode s)
            (S (activeNotesVersion s))
  else s.

(** [setPressedKeys]. *)
Definition withPressedKeys (keys : list string) (s : Synth) : Synth :=
  mkSynth (host s) keys (audioContextRef s) (oscillatorsRef s)
          (gainNodesRef s) (nextNode s) (activeNotesVersion s).

(** [handleKeyPress], lines 337-342.  A handler runs on the state the
    previous event left: the page is rendered again, and the listeners are
    registered again, before the next key or mouse event is dispatched. *)
Definition handleKeyPress (note : string) (frequency : R) (s : Synth)
  : Synth :=
  if setHas note (pressedKeys s) then s
  else playNote frequency note (withPressedKeys (setAdd note (pressedKeys s)) s).

(** [handleKeyRelease], lines 345-354. *)
Definition handleKeyRelease (note : string) (s : Synth) : Synth :=
  if negb (setHas note (pressedKeys s)) then s
  else stopNote note (withPressedKeys (setDelete note (pressedKeys s)) s).

(** *** The computer keyboard (lines 357-395) and the on-screen one
    (lines 696-713) *)

(** [keyMap]. *)
Definition keyMap : list (string * (string * R)) :=
  [("a", ("C4", 261.63)); ("w", ("C#4", 277.18)); ("s", ("D4", 293.66));
   ("e", ("D#4", 311.13)); ("d", ("E4", 329.63)); ("f", ("F4", 349.23));
   ("t", ("F#4", 369.99)); ("g", ("G4", 392.00)); ("y", ("G#4", 415.30));
   ("h", ("A4", 440.00)); ("u", ("A#4", 466.16)); ("j", ("B4", 493.88));
   ("k", ("C5", 523.25))]%string.

(** An entry of [notes] in [Keyboard]. *)
Record NoteKey : Type := mkNoteKey {
  nkNote : string;
  nkFreq : R;
  nkKey : string;
  nkIsSharp : bool
}.

Definition notes : list NoteKey :=
  [mkNoteKey "C4" 261.63 "A" false; mkNoteKey "C#4" 277.18 "W" true;
   mkNoteKey "D4" 293.66 "S" false; mkNoteKey "D#4" 311.13 "E" true;
   mkNoteKey "E4" 329.63 "D" false; mkNoteKey "F4" 349.23 "F" false;
   mkNoteKey "F#4" 369.99 "T" true; mkNoteKey "G4" 392.00 "G" false;
   mkNoteKey "G#4" 415.30 "Y" true; mkNoteKey "A4" 440.00 "H" false;
   mkNoteKey "A#4" 466.16 "U" true; mkNoteKey "B4" 493.88 "J" false;
   mkNoteKey "C5" 523.25 "K" false]%string.

(** [notes.filter((n) => !n.isSharp)] and [notes.filter((n) => n.isSharp)]. *)
Definition whiteKeys : list NoteKey := filter (fun n => negb (nkIsSharp n)) notes.
Definition blackKeys : list NoteKey := filter nkIsSharp notes.

(** [String.prototype.toLowerCase] on strings of ASCII characters, where it
    lower-cases the letters A to Z and nothing else.  Characters outside
    ASCII have lower-case forms of their own (the Kelvin sign becomes [k]);
    the handlers below are modelled on ASCII keys only, see [isAscii]. *)
Definition lowerAscii (c : Ascii.ascii) : Ascii.ascii :=
  let n := Ascii.nat_of_ascii c in
  if ((65 <=? n)%nat && (n <=? 90)%nat)%bool
  then Ascii.ascii_of_nat (n + 32) else c.

Fixpoint toLowerCase (s : string) : string :=
  match s with
  | EmptyString => EmptyString
  | String c rest => String (lowerAscii c) (toLowerCase rest)
  end.

(** Whether every character of a key name is an ASCII character. *)
Fixpoint isAscii (s : string) : bool :=
  match s with
  | EmptyString => true
  | String c rest => ((Ascii.nat_of_ascii c <? 128)%nat && isAscii rest)%bool
  end.

(** The names of the properties [keyMap], an object literal, inherits from
    [Object.prototype]; each holds a function or an object, hence a truthy
    value without a [note] or a [freq]. *)
Definition inheritedNames : list string :=
  ["constructor"; "__proto__"; "hasOwnProperty"; "isPrototypeOf";
   "propertyIsEnumerable"; "toLocaleString"; "toString"; "valueOf";
   "__defineGetter__"; "__defineSetter__"; "__lookupGetter__";
   "__lookupSetter__"]%string.

(** The value of [keyMap[key]]: an entry of the literal, an inherited
    property, or [undefined]. *)
Inductive KeyLookup : Type :=
| OwnEntry (note : string) (freq : R)
| InheritedProperty
| NoProperty.

Definition keyMapAt (key : string) : KeyLookup :=
  match mapGet key keyMap with
  | Some (note, freq) => OwnEntry note freq
  | None =>
      if existsb (String.eqb key) inheritedNames then InheritedProperty
      else NoProperty
  end.

(** [handleKeyDown], lines 374-379, on the value of [e.key].  The result is
    [None] where the call leaves what this development represents: a key
    name with a character outside ASCII, or a key whose lower-cased name is
    an inherited property, for which the handler goes on to
    [handleKeyPress(undefined, undefined)]. *)
Definition handleKeyDown (eKey : string) (s : Synth) : option Synth :=
  if negb (isAscii eKey) then None
  else
    let key := toLowerCase eKey in
    match keyMapAt key with
    | OwnEntry note freq =>
        if negb (setHas note (pressedKeys s))
        then Some (handleKeyPress note freq s)
        else Some s
    | InheritedProperty => None
    | NoProperty => Some s
    end.

(** [handleKeyUp], lines 381-386; [None] for a key name with a character
    outside ASCII.  On an inherited property the handler calls
    [handleKeyRelease(undefined)], which returns at once: [pressedKeys]
    holds note names only. *)
Definition handleKeyUp (eKey : string) (s : Synth) : option Synth :=
  if negb (isAscii eKey) then None
  else
    let key := toLowerCase eKey in
    match keyMapAt key with
    | OwnEntry note _ => Some (handleKeyRelease note s)
    | InheritedProperty => Some s
    | NoProperty => Some s
    end.

(** What can happen to the notes: a key of the computer keyboard goes down
    or up, an on-screen key is pressed or released (lines 722-724), or an
    oscillator ends. *)
Inductive NoteEvent : Type :=
| KeyDown (eKey : string)
| KeyUp (eKey : string)
| MouseDown (k : NoteKey)
| MouseUp (k : NoteKey)
| Ended (note : string).

Definition noteStep (s : Synth) (e : NoteEvent) : option Synth :=
  match e with
  | KeyDown eKey => handleKeyDown eKey s
  | KeyUp eKey => handleKeyUp eKey s
  | MouseDown k => Some (handleKeyPress (nkNote k) (nkFreq k) s)
  | MouseUp k => Some (handleKeyRelease (nkNote k) s)
  | Ended note => Some (onended note s)
  end.

(** A sequence of events, up to the first one that is not represented. *)
Fixpoint runNotes (events : list NoteEvent) (s : Synth) : option Synth :=
  match events with
  | [] => Some s
  | e :: rest =>
      match noteStep s e with
      | Some s' => runNotes rest s'
      | None => None
      end
  end.

(** The scope effect after a render in which one of its dependencies
    ([osc1Freq], [waveform], [filterCutoff], [activeNotesVersion]) changed:
    the cleanup of the previous run, then the body with the new props. *)
Definition rerunEffect (p : Props) (time : R) (h : Host) : Host :=
  mountEffect p time (cleanupEffect h).

(** What can happen to the scope: a note is written to or removed from
    [activeNotesRef], the display refreshes, or the effect runs again with
    the props of the new render.  The state is the props the latest run of
    the effect closed over, and the host. *)
Inductive ScopeEvent : Type :=
| NoteSet (note : string) (frequency : R)
| NoteDelete (note : string)
| Tick (time : R)
| Rerun (p : Props) (time : R).

Definition scopeStep (st : Props * Host) (e : ScopeEvent) : Props * Host :=
  let (p, h) := st in
  match e with
  | NoteSet note frequency =>
      (p, withActiveNotes (mapSet note frequency (activeNotesRef h)) h)
  | NoteDelete note =>
      (p, withActiveNotes (mapDelete note (activeNotesRef h)) h)
  | Tick time => (p, refresh p time h)
  | Rerun p' time => (p', rerunEffect p' time h)
  end.

(** *** [Knob] (lines 615-684) *)

Module Knob.

(** [const percentage = ((value - min) / (max - min)) * 100]. *)
Definition percentage (value min max : R) : R :=
  ((value - min) / (max - min)) * 100.

(** [const rotation = (percentage / 100) * 270 - 135]. *)
Definition rotation (value min max : R) : R :=
  (percentage value min max / 100) * 270 - 135.

(** The knob's own state: [isDragging], [startY], [startValue]. *)
Record State : Type := mkState {
  isDragging : bool;
  startY : R;
  startValue : R
}.

(** [handleMouseDown], lines 638-642, at height [clientY] with the current
    [value]. *)
Definition handleMouseDown (clientY value : R) (st : State) : State :=
  mkState true clientY value.

(** [handleMouseUp], lines 654-656. *)
Definition handleMouseUp (st : State) : State :=
  mkState false (startY st) (startValue st).

(** [handleMouseMove], lines 645-652: the value passed to [onChange], or
    [None] when [onChange] is not called. *)
Definition handleMouseMove (min max clientY : R) (st : State) : option R :=
  if negb (isDragging st) then None
  else
    let deltaY := startY st - clientY in
    let range := max - min in
    let change := (deltaY / 100) * range in
    Some (JsMath.max min (Rmin max (startValue st + change))).

End Knob.

(** *** The audio parameters [playNote] sets (lines 255-303) *)

(** The calls scheduled on [gainNode.gain]. *)
Inductive GainEvent : Type :=
| SetValueAtTime (value time : R)
| LinearRampToValueAtTime (value time : R).

Definition eventTime (e : GainEvent) : R :=
  match e with
  | SetValueAtTime _ t => t
  | LinearRampToValueAtTime _ t => t
  end.

Definition eventValue (e : GainEvent) : R :=
  match e with
  | SetValueAtTime v _ => v
  | LinearRampToValueAtTime v _ => v
  end.

(** The envelope settings of the page. *)
Record Adsr : Type := mkAdsr {
  volume : R;
  attack : R;
  decay : R;
  sustain : R;
  release : R
}.

(** Lines 257-261, with [now = audioContext.currentTime]. *)
Definition envelope (a : Adsr) (now : R) : list GainEvent :=
  [SetValueAtTime 0 now;
   LinearRampToValueAtTime (volume a) (now + attack a);
   LinearRampToValueAtTime (volume a * sustain a) (now + attack a + decay a);
   SetValueAtTime (volume a * sustain a) (now + attack a + decay a + 0.1);
   LinearRampToValueAtTime 0 (now + attack a + decay a + 0.1 + release a)].

(** The argument of [oscillator.stop], line 303. *)
Definition oscillatorStopTime (a : Adsr) (now : R) : R :=
  now + attack a + decay a + 0.1 + release a.

(** [dryGain.gain.value], line 271. *)
Definition dryGain (reverb delay : R) : R :=
  1 - JsMath.max (reverb / 100) (delay / 100) * 0.3.

(** [delayGainRef.current.gain.value], line 226. *)
Definition delayFeedback (delay : R) : R := delay / 100 * 0.4.

(** A sample of the reverb impulse, line 187: [rnd] is the value of
    [Math.random()]; [Math.pow] on a positive base is [Rpower]. *)
Definition impulseSample (rnd : R) (i : nat) (bufferLength : R) : R :=
  (rnd * 2 - 1) * Rpower (1 - INR i / bufferLength) 1.5.

(** Nothing pending or exactly the request the ref remembers; handles are
    positive. *)
Definition ScopeInv (h : Host) : Prop :=
  (pending h = [] \/ Looping h) /\ (0 < nextHandle h)%nat.

(** The page before any key is touched; [ctx] tells whether the audio
    context could be created. *)
Definition initialSynth (ctx : bool) : Synth :=
  mkSynth initialHost [] ctx [] [] 0 0.

(** The note names and frequencies of the on-screen keyboard. *)
Definition tablePitches : list (string * R) :=
  map (fun k => (nkNote k, nkFreq k)) notes.

(** Every note shown by the scope is a held key that has a gain node, and
    the two node maps hold the same notes. *)
Definition NotesInv (s : Synth) : Prop :=
  (forall n, mapHas n (activeNotesRef (host s)) = true ->
             setHas n (pressedKeys s) = true
             /\ mapHas n (gainNodesRef s) = true)
  /\ map fst (oscillatorsRef s) = map fst (gainNodesRef s).

(** The events of a represented run on the two keyboards: key names are
    ASCII, a key going down does not lower-case to an inherited property,
    and mouse events come from the keys the on-screen keyboard renders. *)
Definition fromKeyboard (e : NoteEvent) : Prop :=
  match e with
  | KeyDown eKey =>
      isAscii eKey = true
      /\ existsb (String.eqb (toLowerCase eKey)) inheritedNames = false
  | KeyUp eKey => isAscii eKey = true
  | MouseDown k => In k notes
  | MouseUp k => In k notes
  | Ended _ => True
  end.

(** The [raw] array a call of [drawWaveform] fills, [None] for a call that
    returns at line 50, before the array exists. *)
Definition frameRaw (p : Props) (time : R) (h : Host) : option (list R) :=
  let freqs := activeNoteFrequencies h in
  let shouldVisualize := Nat.ltb 0 (length freqs) in
  if negb shouldVisualize then None
  else Some (synthesize p time freqs).

(** * Properties *)

(** ** The waveform functions stay within [-1, 1] on nonnegative phases *)

Lemma sign_bound (x : R) : -1 <= JsMath.sign x <= 1.
Proof.
  unfold JsMath.sign.
  destruct (Rlt_dec 0 x); [lra|].
  destruct (Rlt_dec x 0); lra.
Qed.

Lemma rem1_nonneg (x : R) : 0 <= x -> 0 <= JsMath.rem x 1 < 1.
Proof.
  intros Hx. unfold JsMath.rem, JsMath.trunc.
  replace (x / 1) with x by field.
  destruct (Rle_dec 0 x) as [_|Hn]; [|contradiction].
  pose proof (Zfloor_bound x). lra.
Qed.

Lemma turns_nonneg (t : R) : 0 <= t -> 0 <= t / (2 * PI).
Proof.
  intros Ht. pose proof PI_RGT_0.
  apply Rmult_le_pos; [exact Ht|].
  left. apply Rinv_0_lt_compat. lra.
Qed.

Lemma phase_nonneg (i : nat) (time freq : R) :
  0 <= time -> 0 <= freq -> 0 <= phase i time freq.
Proof.
  intros Ht Hf. unfold phase.
  pose proof PI_RGT_0 as Hpi.
  pose proof (pos_INR i) as Hi.
  assert (0 < INR samples) as Hs by (apply lt_0_INR; unfold samples; lia).
  assert (0 <= INR i / INR samples) as Hq.
  { apply Rmult_le_pos; [exact Hi|]. left. now apply Rinv_0_lt_compat. }
  assert (0 <= time * freq) by now apply Rmult_le_pos.
  assert (0 <= INR i / INR samples * PI) by (apply Rmult_le_pos; lra).
  lra.
Qed.

Lemma waveSample_bound (wf : string) (t : R) :
  0 <= t -> -1 <= waveSample wf t <= 1.
Proof.
  intros Ht. unfold waveSample.
  pose proof (SIN_bound t) as Hsin.
  pose proof (rem1_nonneg _ (turns_nonneg t Ht)) as Hrem.
  destruct (String.eqb wf "sine"); [exact Hsin|].
  destruct (String.eqb wf "square"); [apply sign_bound|].
  destruct (String.eqb wf "sawtooth"); [lra|].
  destruct (String.eqb wf "triangle"); [|exact Hsin].
  unfold JsMath.abs, Rabs.
  destruct (Rcase_abs _); lra.
Qed.

Lemma mixSum_bound_from (wf : string) (time : R) (i : nat) (freqs : list R) :
  0 <= time -> Forall (fun f => 0 <= f) freqs ->
  forall acc,
    acc - INR (length freqs)
    <= fold_left (fun y freq => y + waveSample wf (phase i time freq)) freqs acc
    <= acc + INR (length freqs).
Proof.
  intros Ht Hall. induction Hall as [|f fs Hf _ IH]; intros acc.
  - simpl. lra.
  - cbn [fold_left length]. rewrite S_INR.
    pose proof (waveSample_bound wf _ (phase_nonneg i time f Ht Hf)).
    specialize (IH (acc + waveSample wf (phase i time f))). lra.
Qed.

Lemma max1_length (A : Type) (l : list A) :
  l <> [] -> JsMath.max 1 (INR (length l)) = INR (length l).
Proof.
  intros Hne. unfold JsMath.max. apply Rmax_right.
  destruct l as [|a l]; [contradiction|].
  cbn [length]. rewrite S_INR. pose proof (pos_INR (length l)). lra.
Qed.

(** C3.  For a non-empty set of nonnegative active frequencies, a
    nonnegative clock, any waveform and any index [i <= samples], the mixed
    value before the filter step (sum of the waveform samples divided by
    [max(1, count)]) lies in [-1, 1]. *)
Theorem mixed_within_unit (p : Props) (time : R) (active : list R) (i : nat) :
  active <> [] ->
  Forall (fun f => 0 <= f) active ->
  0 <= time ->
  (i <= samples)%nat ->
  -1 <= mixed (waveform p) time (scopeFrequencies active (osc1Freq p)) i <= 1.
Proof.
  intros Hne Hall Ht _.
  assert (scopeFrequencies active (osc1Freq p) = active) as ->
      by (destruct active; [contradiction|reflexivity]).
  unfold mixed, mixSum. rewrite (max1_length _ active Hne).
  pose proof (mixSum_bound_from (waveform p) time i active Ht Hall 0) as Hb.
  assert (0 < INR (length active)) as Hpos.
  { destruct active; [contradiction|]. apply lt_0_INR. cbn. lia. }
  set (s := fold_left _ _ _) in *. set (n := INR (length active)) in *.
  split.
  - apply Rmult_le_reg_r with n; [exact Hpos|].
    unfold Rdiv. rewrite Rmult_assoc, Rinv_l by lra. lra.
  - apply Rmult_le_reg_r with n; [exact Hpos|].
    unfold Rdiv. rewrite Rmult_assoc, Rinv_l by lra. lra.
Qed.

Lemma mixed_within_unit_witness :
  -1 <= mixed "sawtooth" 2 (scopeFrequencies [440; 220] 110) 450 <= 1.
Proof.
  apply (mixed_within_unit (mkProps 110 "sawtooth" 1000) 2 [440; 220] 450).
  - discriminate.
  - repeat (apply Forall_cons; [lra|]). apply Forall_nil.
  - lra.
  - unfold samples. lia.
Defined.

(** ** The moving average is the mean of the clipped window *)

Section Smoothing.

Variables (N : nat) (raw : list R) (i : nat).

(** The guard [idx >= 0 && idx <= samples] as a test on [k]. *)
Let inBounds (k : Z) : bool :=
  ((0 <=? Z.of_nat i + k)%Z && (Z.of_nat i + k <=? Z.of_nat N)%Z)%bool.

Let rawAtOffset (k : Z) : R := nth (Z.to_nat (Z.of_nat i + k)) raw 0.

(** The loop adds up the samples it selects and counts them. *)
Lemma fold_smoothStep (ks : list Z) :
  forall s c,
    fold_left (smoothStep N raw i) ks (s, c)
    = (fold_left Rplus (map rawAtOffset (filter inBounds ks)) s,
       (c + length (filter inBounds ks))%nat).
Proof.
  induction ks as [|k ks IH]; intros s c.
  - cbn. f_equal. lia.
  - cbn [fold_left filter]. unfold smoothStep at 2. fold (inBounds k).
    destruct (inBounds k) eqn:Hk.
    + cbn [fst snd map fold_left length]. rewrite IH. f_equal. lia.
    + apply IH.
Qed.

(** The offsets a counting loop selects form one run. *)
Lemma filter_zseq (m : nat) :
  forall a,
    filter inBounds (zseq a m)
    = zseq (Z.max a (- Z.of_nat i))
           (Z.to_nat (Z.min (a + Z.of_nat m - 1) (Z.of_nat N - Z.of_nat i)
                      - Z.max a (- Z.of_nat i) + 1)).
Proof.
  induction m as [|m IH]; intros a.
  - cbn [zseq filter].
    replace (Z.to_nat _) with O by lia. reflexivity.
  - cbn [zseq filter]. rewrite IH. unfold inBounds.
    destruct (Z.leb_spec 0 (Z.of_nat i + a));
      destruct (Z.leb_spec (Z.of_nat i + a) (Z.of_nat N)); cbn [andb].
    + match goal with
      | |- _ = zseq _ (Z.to_nat ?c) =>
          replace (Z.to_nat c) with (S (Z.to_nat (c - 1))) by lia
      end.
      cbn [zseq]. replace (Z.max a (- Z.of_nat i)) with a by lia.
      f_equal. f_equal; lia.
    + match goal with
      | |- zseq _ (Z.to_nat ?c) = zseq _ (Z.to_nat ?d) =>
          replace (Z.to_nat c) with O by lia;
          replace (Z.to_nat d) with O by lia
      end.
      reflexivity.
    + f_equal; lia.
    + f_equal; lia.
Qed.

Lemma skipn_cons_nth (l : list R) :
  forall n, (n < length l)%nat -> skipn n l = nth n l 0 :: skipn (S n) l.
Proof.
  induction l as [|x l IH]; intros n Hn; [cbn in Hn; lia|].
  destruct n as [|n]; [reflexivity|].
  cbn [length] in Hn. cbn [skipn nth]. rewrite IH by lia. reflexivity.
Qed.

(** Reading [raw] along a run of offsets reads a segment of it. *)
Lemma map_rawAtOffset_zseq (m : nat) :
  forall a,
    (0 <= Z.of_nat i + a)%Z ->
    (Z.to_nat (Z.of_nat i + a) + m <= length raw)%nat ->
    map rawAtOffset (zseq a m)
    = firstn m (skipn (Z.to_nat (Z.of_nat i + a)) raw).
Proof.
  induction m as [|m IH]; intros a Hlo Hhi; [reflexivity|].
  cbn [zseq map]. rewrite skipn_cons_nth by lia. cbn [firstn].
  unfold rawAtOffset at 1. f_equal.
  rewrite IH by lia. f_equal. f_equal. lia.
Qed.

Hypothesis raw_length : length raw = (N + 1)%nat.
Hypothesis i_in_range : (i <= N)%nat.

Lemma clippedWindow_length (w : nat) :
  length (clippedWindow N w raw i) = (Nat.min N (i + w) + 1 - (i - w))%nat.
Proof.
  unfold clippedWindow. rewrite length_firstn, length_skipn. lia.
Qed.

(** What the inner loop has computed when it ends. *)
Lemma smooth_loop_result (w : nat) :
  fold_left (smoothStep N raw i) (kRange (Z.of_nat w)) (0, O)
  = (fold_left Rplus (clippedWindow N w raw i) 0,
     length (clippedWindow N w raw i)).
Proof.
  rewrite fold_smoothStep. unfold kRange. rewrite filter_zseq.
  rewrite map_rawAtOffset_zseq by lia.
  assert (forall a m, length (zseq a m) = m) as Hlen.
  { intros a m. revert a. induction m; intros a; cbn; [|rewrite IHm]; lia. }
  rewrite Hlen, clippedWindow_length. unfold clippedWindow.
  f_equal; [|lia].
  f_equal. f_equal; [lia|f_equal; lia].
Qed.

Lemma smoothAt_mean (w : nat) :
  smoothAt N (Z.of_nat w) raw i = mean (clippedWindow N w raw i).
Proof.
  unfold smoothAt, mean. rewrite smooth_loop_result. cbn [fst snd].
  f_equal. unfold JsMath.max. apply Rmax_right.
  rewrite clippedWindow_length.
  change 1 with (INR 1). apply le_INR. lia.
Qed.

Lemma clippedWindow_nth (w k : nat) :
  (k < length (clippedWindow N w raw i))%nat ->
  nth k (clippedWindow N w raw i) 0 = nth (i - w + k) raw 0.
Proof.
  intros Hk. unfold clippedWindow in *.
  rewrite length_firstn in Hk.
  rewrite nth_firstn.
  destruct (Nat.ltb_spec k (Nat.min N (i + w) + 1 - (i - w))); [|lia].
  apply nth_skipn.
Qed.

End Smoothing.

Lemma smoothBuffer_length (N : nat) (w : Z) (raw : list R) :
  length (smoothBuffer N w raw) = (N + 1)%nat.
Proof. unfold smoothBuffer. now rewrite length_map, length_seq. Qed.

Lemma smoothBuffer_nth (N : nat) (w : Z) (raw : list R) (i : nat) :
  (i <= N)%nat -> nth i (smoothBuffer N w raw) 0 = smoothAt N w raw i.
Proof.
  intros Hi. unfold smoothBuffer.
  rewrite (nth_indep _ 0 (smoothAt N w raw 0))
    by (rewrite length_map, length_seq; lia).
  rewrite map_nth, seq_nth by lia. reflexivity.
Qed.

(** C5.  For a raw buffer of [samples + 1] values and an index
    [i <= samples], [smoothed[i]] is the arithmetic mean of the values
    [raw[j]] with [j] in [i - 6 .. i + 6] clipped to [0 .. samples]: the
    window starts at [max 0 (i - 6)], holds [min samples (i + 6) + 1 - max 0 (i - 6)]
    consecutive values of [raw], fewer than 13 near either edge, and the
    smoothed buffer is as long as the raw one. *)
Theorem smoothed_is_clipped_mean (raw : list R) (i : nat) :
  length raw = (samples + 1)%nat ->
  (i <= samples)%nat ->
  let window := clippedWindow samples 6 raw i in
  nth i (smoothed raw) 0 = mean window
  /\ (forall k, (k < length window)%nat ->
                nth k window 0 = nth (i - 6 + k) raw 0)
  /\ length window = (Nat.min samples (i + 6) + 1 - (i - 6))%nat
  /\ ((i < 6)%nat \/ (samples - 6 < i)%nat -> (length window < 13)%nat)
  /\ length (smoothed raw) = length raw.
Proof.
  intros Hlen Hi window. subst window.
  pose proof (clippedWindow_length samples raw i Hlen Hi 6) as Hwl.
  repeat split.
  - unfold smoothed. rewrite smoothBuffer_nth by exact Hi.
    exact (smoothAt_mean samples raw i Hlen Hi 6).
  - intros k Hk. now apply clippedWindow_nth.
  - exact Hwl.
  - intros Hedge. rewrite Hwl. lia.
  - unfold smoothed. rewrite smoothBuffer_length. now symmetry.
Qed.

Lemma smoothed_is_clipped_mean_witness :
  let raw := map INR (seq 0 (samples + 1)) in
  let window := clippedWindow samples 6 raw 2 in
  nth 2 (smoothed raw) 0 = mean window
  /\ (forall k, (k < length window)%nat ->
                nth k window 0 = nth (2 - 6 + k) raw 0)
  /\ length window = (Nat.min samples (2 + 6) + 1 - (2 - 6))%nat
  /\ ((2 < 6)%nat \/ (samples - 6 < 2)%nat -> (length window < 13)%nat)
  /\ length (smoothed raw) = length raw.
Proof.
  intros raw.
  apply (smoothed_is_clipped_mean raw 2).
  - unfold raw. rewrite length_map, length_seq. reflexivity.
  - unfold samples. lia.
Defined.

(** ** The filter attenuation *)

Lemma filterEffect_high (cutoff : R) : 5000 <= cutoff -> filterEffect cutoff = 0.
Proof.
  intros Hc. unfold filterEffect, JsMath.max. apply Rmax_left. lra.
Qed.

Lemma filterEffect_low (cutoff : R) :
  cutoff <= 5000 -> filterEffect cutoff = 1 - cutoff / 5000.
Proof.
  intros Hc. unfold filterEffect, JsMath.max. apply Rmax_right. lra.
Qed.

(** C4, as stated, fails below zero: at [filterCutoff = -5000] the factor is
    0, not 0.5. *)
Lemma attenuation_negative_cutoff_counterexample :
  -5000 <= 0 /\ attenuation (-5000) = 0 /\ attenuation (-5000) <> 0.5.
Proof.
  assert (attenuation (-5000) = 0) as H.
  { unfold attenuation. rewrite filterEffect_low by lra. lra. }
  rewrite H. repeat split; lra.
Qed.

(** C4, amended.  The factor applied to each sample is
    [1 - max(0, 1 - filterCutoff/5000) * 0.5]; it is exactly 1 for every
    [filterCutoff >= 5000], exactly 0.5 at [filterCutoff = 0], and
    [0.5 + filterCutoff/10000] (below 0.5) for every [filterCutoff <= 0]:
    the filter effect has no upper clamp. *)
Theorem attenuation_values (cutoff : R) :
  attenuation cutoff = 1 - Rmax 0 (1 - cutoff / 5000) * 0.5
  /\ (5000 <= cutoff -> attenuation cutoff = 1)
  /\ attenuation 0 = 0.5
  /\ (cutoff <= 0 -> attenuation cutoff = 0.5 + cutoff / 10000)
  /\ (cutoff < 0 -> attenuation cutoff < 0.5).
Proof.
  split; [reflexivity|]. unfold attenuation. repeat split.
  - intros Hc. rewrite filterEffect_high by exact Hc. lra.
  - rewrite filterEffect_low by lra. lra.
  - intros Hc. rewrite filterEffect_low by lra. lra.
  - intros Hc. rewrite filterEffect_low by lra. lra.
Qed.

Lemma attenuation_values_witness :
  attenuation 5000 = 1
  /\ attenuation (-2500) = 0.5 + (-2500) / 10000
  /\ attenuation (-2500) < 0.5.
Proof.
  split; [|split].
  - apply (attenuation_values 5000). lra.
  - apply (attenuation_values (-2500)). lra.
  - apply (attenuation_values (-2500)). lra.
Defined.

(** The same values on binary64 numbers, where every step is exact. *)
Example attenuation_binary64 :
  Binary64.attenuation64 5000 = 1%float
  /\ Binary64.attenuation64 0 = 0.5%float
  /\ Binary64.attenuation64 (-5000) = 0%float.
Proof. repeat split. Qed.

(** ** The vertical mapping *)

Lemma toCanvasY_range (ch : nat) (s : R) :
  -1 <= s <= 1 -> 0.1 * INR ch <= toCanvasY ch s <= 0.9 * INR ch.
Proof.
  intros Hs. unfold toCanvasY. pose proof (pos_INR ch) as Hh.
  assert (- (INR ch / 2) <= s * (INR ch / 2) <= INR ch / 2) by nra.
  lra.
Qed.

Lemma nth_within_unit (sm : list R) (i : nat) :
  Forall (fun s => -1 <= s <= 1) sm -> -1 <= nth i sm 0 <= 1.
Proof.
  intros Hall. destruct (Nat.lt_ge_cases i (length sm)) as [Hi|Hi].
  - rewrite Forall_forall in Hall. apply Hall. now apply nth_In.
  - rewrite nth_overflow by exact Hi. lra.
Qed.

(** C6.  A smoothed value [s] is drawn at [h/2 + s * (h/2) * 0.8] on a
    surface of height [h]; when every smoothed value lies in [-1, 1], every
    vertical coordinate of the trace (sample points, control points and the
    midpoints the curve passes through) lies within [0.1*h, 0.9*h]. *)
Theorem toCanvasY_margin (ch : nat) (s : R) :
  toCanvasY ch s = INR ch / 2 + s * (INR ch / 2) * 0.8
  /\ (-1 <= s <= 1 -> 0.1 * INR ch <= toCanvasY ch s <= 0.9 * INR ch)
  /\ (forall (cw : nat) (sm : list R),
         Forall (fun v => -1 <= v <= 1) sm ->
         Forall (fun c =>
                   Forall (fun y => 0.1 * INR ch <= y <= 0.9 * INR ch)
                          (plottedYs c))
                (curveCommands cw ch sm)).
Proof.
  split; [reflexivity|]. split; [apply toCanvasY_range|].
  intros cw sm Hsm.
  assert (forall i, 0.1 * INR ch <= toCanvasY ch (nth i sm 0) <= 0.9 * INR ch)
    as Hy by (intros i; apply toCanvasY_range, nth_within_unit, Hsm).
  assert (Forall (fun y => 0.1 * INR ch <= y <= 0.9 * INR ch) []) as Hnil
    by apply Forall_nil.
  unfold curveCommands. repeat rewrite Forall_app. repeat split.
  - repeat (apply Forall_cons; [exact Hnil|]). apply Forall_nil.
  - apply Forall_cons; [|apply Forall_nil].
    apply Forall_cons; [apply Hy|exact Hnil].
  - rewrite Forall_map. apply Forall_forall. intros i _.
    unfold curveSegment. cbn [plottedYs].
    pose proof (Hy i). pose proof (Hy (i + 1)%nat).
    apply Forall_cons; [lra|]. apply Forall_cons; [lra|exact Hnil].
  - apply Forall_cons; [|apply Forall_cons; [exact Hnil|apply Forall_nil]].
    apply Forall_cons; [apply Hy|exact Hnil].
Qed.

Lemma toCanvasY_margin_witness :
  0.1 * INR 180 <= toCanvasY 180 (-1) <= 0.9 * INR 180
  /\ Forall (fun c =>
               Forall (fun y => 0.1 * INR 180 <= y <= 0.9 * INR 180)
                      (plottedYs c))
            (curveCommands 600 180 [1; -1; 0.5]).
Proof.
  split.
  - apply (toCanvasY_margin 180 (-1)). lra.
  - apply (proj2 (proj2 (toCanvasY_margin 180 0)) 600%nat [1; -1; 0.5]).
    repeat (apply Forall_cons; [lra|]). apply Forall_nil.
Defined.

(** ** The square wave at a zero crossing *)

Lemma sign_zero : JsMath.sign 0 = 0.
Proof.
  unfold JsMath.sign.
  destruct (Rlt_dec 0 0); [lra|]. destruct (Rlt_dec 0 0); [lra|reflexivity].
Qed.

Lemma phase_origin (freq : R) : phase 0 0 freq = 0.
Proof. unfold phase. change (INR 0) with 0. unfold Rdiv. ring. Qed.

(** C7.  For the square waveform the sample at any phase [t] with
    [sin t = 0] is the number 0 itself, neither 1 nor -1; this is the case at
    [clockSeconds = 0], [i = 0], where the phase is 0 for every frequency and
    [raw[0]] is 0. *)
Theorem square_zero_crossing (t : R) :
  (sin t = 0 ->
   waveSample "square" t = 0
   /\ waveSample "square" t <> 1 /\ waveSample "square" t <> -1)
  /\ (forall freq, phase 0 0 freq = 0 /\ waveSample "square" (phase 0 0 freq) = 0)
  /\ (forall cutoff freqs, rawAt "square" cutoff 0 freqs 0 = 0).
Proof.
  assert (forall u, sin u = 0 -> waveSample "square" u = 0) as Hsq.
  { intros u Hu. unfold waveSample. cbn [String.eqb Ascii.eqb Bool.eqb].
    rewrite Hu. apply sign_zero. }
  split; [|split].
  - intros Ht. rewrite (Hsq t Ht). repeat split; lra.
  - intros freq. split; [apply phase_origin|].
    apply Hsq. rewrite phase_origin. apply sin_0.
  - intros cutoff freqs. unfold rawAt, mixed, mixSum.
    assert (forall acc,
               fold_left (fun y freq => y + waveSample "square" (phase 0 0 freq))
                         freqs acc = acc) as Hfold.
    { induction freqs as [|f fs IH]; intros acc; [reflexivity|].
      cbn [fold_left]. rewrite IH.
      rewrite Hsq by (rewrite phase_origin; apply sin_0). ring. }
    rewrite Hfold. unfold Rdiv. ring.
Qed.

Lemma square_zero_crossing_witness :
  waveSample "square" PI = 0
  /\ waveSample "square" PI <> 1 /\ waveSample "square" PI <> -1.
Proof. apply (square_zero_crossing PI). exact sin_PI. Defined.

(** ** The default branch of the waveform switch *)

(** C8.  For a waveform value that is none of ["sine"], ["square"],
    ["sawtooth"], ["triangle"], sample synthesis takes the default branch and
    yields [sin t], the value of the sine branch, at every phase [t]. *)
Theorem unknown_waveform_is_sine (wf : string) (t : R) :
  wf <> "sine"%string -> wf <> "square"%string ->
  wf <> "sawtooth"%string -> wf <> "triangle"%string ->
  waveSample wf t = sin t /\ waveSample wf t = waveSample "sine" t.
Proof.
  intros H1 H2 H3 H4.
  apply String.eqb_neq in H1, H2, H3, H4.
  unfold waveSample at 1 2. rewrite H1, H2, H3, H4.
  split; reflexivity.
Qed.

Lemma unknown_waveform_is_sine_witness :
  waveSample "noise" 1 = sin 1 /\ waveSample "noise" 1 = waveSample "sine" 1.
Proof.
  apply (unknown_waveform_is_sine "noise" 1); discriminate.
Defined.

(** ** The fallback frequency *)

Lemma scopeFrequencies_active (active : list R) (osc1 : R) :
  active <> [] -> scopeFrequencies active osc1 = active.
Proof. destruct active; [contradiction|reflexivity]. Qed.

Lemma synthesize_ignores_fallback (f1 f2 : R) (wf : string)
    (cutoff time : R) (active : list R) :
  active <> [] ->
  synthesize (mkProps f1 wf cutoff) time active
  = synthesize (mkProps f2 wf cutoff) time active.
Proof.
  intros Hne. unfold synthesize. cbn [osc1Freq waveform filterCutoff].
  now rewrite !scopeFrequencies_active.
Qed.

(** ** The two branches of [drawWaveform] *)

Lemma drawWaveform_idle (p : Props) (time : R) (h : Host) :
  activeNotesRef h = [] ->
  drawWaveform p time h
  = issue (blankCommands (canvasWidth h) (canvasHeight h))
          (issue [ClearRect 0 0 (INR (canvasWidth h)) (INR (canvasHeight h))]
                 h).
Proof.
  intros Hidle. unfold drawWaveform, activeNoteFrequencies.
  rewrite Hidle. reflexivity.
Qed.

Lemma drawWaveform_active (p : Props) (time : R) (h : Host) :
  activeNotesRef h <> [] ->
  drawWaveform p time h
  = requestAnimationFrame
      (issue (gridCommands (canvasWidth h) (canvasHeight h)
              ++ curveCommands (canvasWidth h) (canvasHeight h)
                   (smoothed (synthesize p time (activeNoteFrequencies h))))
             (issue [ClearRect 0 0 (INR (canvasWidth h))
                               (INR (canvasHeight h))] h)).
Proof.
  intros Hact. unfold drawWaveform, activeNoteFrequencies.
  destruct (activeNotesRef h) as [|n ns]; [contradiction|reflexivity].
Qed.

Lemma activeNoteFrequencies_nonempty (h : Host) :
  activeNotesRef h <> [] -> activeNoteFrequencies h <> [].
Proof.
  unfold activeNoteFrequencies.
  destruct (activeNotesRef h); [contradiction|discriminate].
Qed.

(** C10.  With a non-empty active set the raw buffer, the smoothed buffer
    and the whole effect of [drawWaveform] are the same for any two values of
    the fallback frequency [osc1Freq], the other inputs being equal. *)
Theorem active_set_hides_fallback (f1 f2 : R) (wf : string)
    (cutoff time : R) (h : Host) :
  activeNotesRef h <> [] ->
  let active := activeNoteFrequencies h in
  synthesize (mkProps f1 wf cutoff) time active
  = synthesize (mkProps f2 wf cutoff) time active
  /\ smoothed (synthesize (mkProps f1 wf cutoff) time active)
     = smoothed (synthesize (mkProps f2 wf cutoff) time active)
  /\ drawWaveform (mkProps f1 wf cutoff) time h
     = drawWaveform (mkProps f2 wf cutoff) time h.
Proof.
  intros Hact active.
  pose proof (synthesize_ignores_fallback f1 f2 wf cutoff time active
                (activeNoteFrequencies_nonempty h Hact)) as Hraw.
  split; [exact Hraw|]. split; [now rewrite Hraw|].
  rewrite !drawWaveform_active by exact Hact.
  fold active. now rewrite Hraw.
Qed.

Lemma active_set_hides_fallback_witness :
  let h := mkHost 600 180 [("A4"%string, 440)] None 1 [] [] in
  let active := activeNoteFrequencies h in
  synthesize (mkProps 110 "sine" 1000) 3 active
  = synthesize (mkProps 880 "sine" 1000) 3 active
  /\ smoothed (synthesize (mkProps 110 "sine" 1000) 3 active)
     = smoothed (synthesize (mkProps 880 "sine" 1000) 3 active)
  /\ drawWaveform (mkProps 110 "sine" 1000) 3 h
     = drawWaveform (mkProps 880 "sine" 1000) 3 h.
Proof.
  intros h.
  apply (active_set_hides_fallback 110 880 "sine" 1000 3 h).
  discriminate.
Defined.

(** ** An idle tick *)

Lemma frame_of_issue (cmds : list DrawCmd) (h : Host) :
  skipn (length (drawn h)) (drawn h ++ cmds) = cmds.
Proof.
  rewrite skipn_app, skipn_all, Nat.sub_diag. reflexivity.
Qed.

Lemma frame_idle (p : Props) (time : R) (h : Host) :
  activeNotesRef h = [] ->
  frame p time h
  = ClearRect 0 0 (INR (canvasWidth h)) (INR (canvasHeight h))
    :: blankCommands (canvasWidth h) (canvasHeight h).
Proof.
  intros Hidle. unfold frame. rewrite drawWaveform_idle by exact Hidle.
  unfold issue. cbn [drawn]. rewrite <- app_assoc. apply frame_of_issue.
Qed.

(** C1, as stated, fails: on the page as first rendered (no note held,
    OSC1 at 440 Hz) the tick clears the surface, fills it with the flat
    background and draws no trace. *)
Lemma idle_tick_draws_no_curve_counterexample :
  activeNoteFrequencies initialHost = []
  /\ frame initialProps 0 initialHost
     = [ClearRect 0 0 (INR 600) (INR 180);
        SetFillStyle "#1a1a1a";
        FillRect 0 0 (INR 600) (INR 180)]
  /\ drawsCurve (frame initialProps 0 initialHost) = false.
Proof.
  split; [reflexivity|].
  rewrite (frame_idle initialProps 0 initialHost eq_refl).
  split; reflexivity.
Qed.

(** C1, amended.  On every render tick on which no note is active the
    renderer clears the surface and fills it with the flat background colour
    [#1a1a1a]; it draws no grid and no trace, whatever the fallback frequency
    [osc1Freq] is, and requests no further refresh. *)
Theorem idle_tick_is_blank (p : Props) (time : R) (h : Host) :
  activeNoteFrequencies h = [] ->
  frame p time h
  = [ClearRect 0 0 (INR (canvasWidth h)) (INR (canvasHeight h));
     SetFillStyle "#1a1a1a";
     FillRect 0 0 (INR (canvasWidth h)) (INR (canvasHeight h))]
  /\ drawsCurve (frame p time h) = false
  /\ pending (drawWaveform p time h) = pending h.
Proof.
  intros Hnone.
  assert (activeNotesRef h = []) as Hidle.
  { unfold activeNoteFrequencies in Hnone.
    destruct (activeNotesRef h); [reflexivity|discriminate]. }
  rewrite (frame_idle p time h Hidle).
  repeat split.
  rewrite drawWaveform_idle by exact Hidle. reflexivity.
Qed.

Lemma idle_tick_is_blank_witness :
  let h := mkHost 600 180 [] (Some 7%nat) 8 [] [] in
  frame (mkProps 220 "sine" 5000) 12 h
  = [ClearRect 0 0 (INR 600) (INR 180);
     SetFillStyle "#1a1a1a";
     FillRect 0 0 (INR 600) (INR 180)]
  /\ drawsCurve (frame (mkProps 220 "sine" 5000) 12 h) = false
  /\ pending (drawWaveform (mkProps 220 "sine" 5000) 12 h) = pending h.
Proof.
  intros h.
  apply (idle_tick_is_blank (mkProps 220 "sine" 5000) 12 h).
  reflexivity.
Defined.

(** ** The draw loop *)

Lemma pending_active (p : Props) (time : R) (h : Host) :
  activeNotesRef h <> [] ->
  pending (drawWaveform p time h) = pending h ++ [nextHandle h]
  /\ animationFrameRef (drawWaveform p time h) = Some (nextHandle h)
  /\ activeNotesRef (drawWaveform p time h) = activeNotesRef h
  /\ nextHandle (drawWaveform p time h) = S (nextHandle h).
Proof.
  intros Hact. rewrite drawWaveform_active by exact Hact.
  repeat split.
Qed.

Lemma refresh_active (p : Props) (time : R) (h : Host) (id : nat) :
  activeNotesRef h <> [] -> pending h = [id] ->
  pending (refresh p time h) = [nextHandle h]
  /\ animationFrameRef (refresh p time h) = Some (nextHandle h)
  /\ activeNotesRef (refresh p time h) = activeNotesRef h
  /\ nextHandle (refresh p time h) = S (nextHandle h).
Proof.
  intros Hact Hp. unfold refresh. rewrite Hp.
  set (h' := mkHost _ _ _ _ _ _ _).
  destruct (pending_active p time h' Hact) as (H1 & H2 & H3 & H4).
  repeat split; assumption.
Qed.

Lemma refresh_keeps_looping (p : Props) (time : R) (h : Host) :
  activeNotesRef h <> [] -> Looping h ->
  Looping (refresh p time h)
  /\ activeNotesRef (refresh p time h) = activeNotesRef h.
Proof.
  intros Hact (id & Hp & _ & Hpos & Hlt).
  destruct (refresh_active p time h id Hact Hp) as (H1 & H2 & H3 & H4).
  split; [|exact H3].
  exists (nextHandle h). rewrite H1, H2, H4. repeat split; lia.
Qed.

(** While a note is active the loop keeps exactly one request pending. *)
Lemma refreshes_keep_looping (p : Props) (times : list R) :
  forall h,
    activeNotesRef h <> [] -> Looping h -> Looping (refreshes p times h).
Proof.
  unfold refreshes.
  induction times as [|t ts IH]; intros h Hact Hloop; [exact Hloop|].
  cbn [fold_left].
  destruct (refresh_keeps_looping p t h Hact Hloop) as [Hloop' Hnotes].
  apply IH; [now rewrite Hnotes|exact Hloop'].
Qed.

(** With nothing pending the scheduler runs nothing. *)
Lemma refreshes_stopped (p : Props) (times : list R) (h : Host) :
  pending h = [] -> refreshes p times h = h.
Proof.
  intros Hp. unfold refreshes.
  induction times as [|t ts IH]; [reflexivity|].
  cbn [fold_left]. unfold refresh at 2. rewrite Hp. exact IH.
Qed.

Lemma mount_starts_loop (p : Props) (time : R) (h : Host) :
  activeNotesRef h <> [] -> pending h = [] -> (0 < nextHandle h)%nat ->
  Looping (mountEffect p time h)
  /\ activeNotesRef (mountEffect p time h) = activeNotesRef h.
Proof.
  intros Hact Hp Hpos. unfold mountEffect.
  destruct (pending_active p time h Hact) as (H1 & H2 & H3 & H4).
  split; [|exact H3].
  exists (nextHandle h). rewrite H1, H2, H4, Hp. repeat split; lia.
Qed.

Lemma cleanup_cancels (h : Host) :
  Looping h -> pending (cleanupEffect h) = [].
Proof.
  intros (id & Hp & Hr & Hpos & _). unfold cleanupEffect. rewrite Hr.
  destruct id as [|k]; [lia|].
  unfold cancelAnimationFrame. cbn [pending]. rewrite Hp.
  cbn [filter]. rewrite Nat.eqb_refl. reflexivity.
Qed.

(** C2, as stated, fails: on the page as first rendered, with no
    cancellation issued, the draw callback returns without requesting a
    refresh, and the scheduler then has nothing left to run. *)
Lemma idle_draw_requests_nothing_counterexample :
  activeNoteFrequencies initialHost = []
  /\ pending initialHost = []
  /\ pending (drawWaveform initialProps 0 initialHost) = []
  /\ refreshes initialProps [1; 2; 3] (mountEffect initialProps 0 initialHost)
     = mountEffect initialProps 0 initialHost.
Proof.
  assert (pending (drawWaveform initialProps 0 initialHost) = []) as Hp
      by (rewrite drawWaveform_idle by reflexivity; reflexivity).
  split; [reflexivity|]. split; [reflexivity|]. split; [exact Hp|].
  apply refreshes_stopped. exact Hp.
Qed.

(** C2, amended.  An invocation of the draw callback on which at least one
    note is active requests exactly one next refresh, after the frame is
    drawn; an invocation on which no note is active requests none.  So,
    started with nothing pending, the loop keeps exactly one request pending
    for as long as a note is active, until the cleanup cancels it, after
    which no refresh runs the callback; and it stops by itself at an
    invocation that finds no active note. *)
Theorem draw_loop_runs_while_active (p : Props) (time : R) (h : Host) :
  (activeNotesRef h <> [] ->
   pending (drawWaveform p time h) = pending h ++ [nextHandle h])
  /\ (activeNotesRef h = [] ->
      pending (drawWaveform p time h) = pending h)
  /\ (pending h = [] -> (0 < nextHandle h)%nat ->
      forall times : list R,
        let h' := refreshes p times (mountEffect p time h) in
        (activeNotesRef h <> [] ->
         Looping h'
         /\ pending (cleanupEffect h') = []
         /\ forall t, refresh p t (cleanupEffect h') = cleanupEffect h')
        /\ (activeNotesRef h = [] ->
            h' = mountEffect p time h /\ pending h' = [])).
Proof.
  split; [|split].
  - intros Hact. apply (pending_active p time h Hact).
  - intros Hidle. rewrite drawWaveform_idle by exact Hidle. reflexivity.
  - intros Hp Hpos times h'. split.
    + intros Hact.
      destruct (mount_starts_loop p time h Hact Hp Hpos) as [Hloop Hnotes].
      assert (Looping h') as Hloop'.
      { apply refreshes_keep_looping; [now rewrite Hnotes|exact Hloop]. }
      pose proof (cleanup_cancels h' Hloop') as Hnone.
      repeat split; [exact Hloop'|exact Hnone|].
      intros t. unfold refresh. rewrite Hnone. reflexivity.
    + intros Hidle.
      assert (pending (mountEffect p time h) = []) as Hstop.
      { unfold mountEffect. rewrite drawWaveform_idle by exact Hidle.
        exact Hp. }
      subst h'. rewrite refreshes_stopped by exact Hstop.
      split; [reflexivity|exact Hstop].
Qed.

Lemma draw_loop_runs_while_active_witness :
  let playing := mkHost 600 180 [("A4"%string, 440)] None 1 [] [] in
  let idle := mkHost 600 180 [] None 1 [] [] in
  pending (drawWaveform initialProps 5 playing) = pending playing ++ [1%nat]
  /\ pending (drawWaveform initialProps 5 idle) = pending idle
  /\ Looping (refreshes initialProps [6; 7] (mountEffect initialProps 5 playing))
  /\ refreshes initialProps [6; 7] (mountEffect initialProps 5 idle)
     = mountEffect initialProps 5 idle.
Proof.
  intros playing idle.
  assert (activeNotesRef playing <> []) as Hact by discriminate.
  assert (0 < nextHandle playing)%nat as Hpos by (cbn; lia).
  split; [|split; [|split]].
  - apply (draw_loop_runs_while_active initialProps 5 playing). exact Hact.
  - apply (draw_loop_runs_while_active initialProps 5 idle). reflexivity.
  - apply (draw_loop_runs_while_active initialProps 5 playing);
      [reflexivity|exact Hpos|exact Hact].
  - apply (draw_loop_runs_while_active initialProps 5 idle);
      [reflexivity|exact Hpos|reflexivity].
Defined.

(** * Further properties of the renderer *)

(** ** Smoothing does not overshoot *)

Lemma Forall_firstn_skipn (P : R -> Prop) (l : list R) (m n : nat) :
  Forall P l -> Forall P (firstn n (skipn m l)).
Proof.
  intros Hl.
  assert (Forall P (skipn m l)) as Hs.
  { revert m. induction Hl as [|x xs Hx Hxs IH]; intros [|m]; cbn [skipn];
      try apply Forall_nil; [now apply Forall_cons|apply IH]. }
  revert n. induction Hs as [|x xs Hx _ IH]; intros [|n]; cbn [firstn];
    try apply Forall_nil.
  apply Forall_cons; [exact Hx|apply IH].
Qed.

Lemma sum_within (a b : R) (l : list R) :
  Forall (fun v => a <= v <= b) l ->
  forall acc,
    acc + a * INR (length l) <= fold_left Rplus l acc
    <= acc + b * INR (length l).
Proof.
  induction 1 as [|x xs Hx _ IH]; intros acc.
  - cbn. lra.
  - cbn [fold_left length]. rewrite S_INR. specialize (IH (acc + x)). lra.
Qed.

Lemma mean_within (a b : R) (l : list R) :
  l <> [] -> Forall (fun v => a <= v <= b) l -> a <= mean l <= b.
Proof.
  intros Hne Hall. unfold mean.
  pose proof (sum_within a b l Hall 0) as Hs.
  assert (0 < INR (length l)) as Hpos.
  { destruct l; [contradiction|]. apply lt_0_INR. cbn. lia. }
  set (s := fold_left Rplus l 0) in *. set (n := INR (length l)) in *.
  split; apply Rmult_le_reg_r with n; try exact Hpos;
    unfold Rdiv; rewrite Rmult_assoc, Rinv_l by lra; lra.
Qed.

Lemma smoothBuffer_within (N w : nat) (raw : list R) (a b : R) :
  length raw = (N + 1)%nat ->
  Forall (fun v => a <= v <= b) raw ->
  Forall (fun v => a <= v <= b) (smoothBuffer N (Z.of_nat w) raw).
Proof.
  intros Hlen Hall. unfold smoothBuffer.
  rewrite Forall_map. apply Forall_forall. intros i Hi.
  apply in_seq in Hi.
  assert (i <= N)%nat as Hi' by lia.
  rewrite (smoothAt_mean N raw i Hlen Hi' w).
  apply mean_within.
  - intros Hnil. apply (f_equal (@length R)) in Hnil.
    rewrite (clippedWindow_length N raw i Hlen Hi' w) in Hnil.
    cbn [length] in Hnil. lia.
  - unfold clippedWindow. now apply Forall_firstn_skipn.
Qed.

(** The moving average of values that lie between [a] and [b] lies between
    [a] and [b]: smoothing rounds edges off without widening the range. *)
Theorem smoothing_within_bounds (raw : list R) (a b : R) :
  length raw = (samples + 1)%nat ->
  Forall (fun v => a <= v <= b) raw ->
  Forall (fun v => a <= v <= b) (smoothed raw).
Proof.
  intros Hlen Hall. unfold smoothed.
  change windowSize with (Z.of_nat 6).
  now apply smoothBuffer_within.
Qed.

Lemma smoothing_within_bounds_witness :
  Forall (fun v => 0 <= v <= 1) (smoothed (repeat 1 (samples + 1))).
Proof.
  apply (smoothing_within_bounds (repeat 1 (samples + 1)) 0 1).
  - apply repeat_length.
  - apply Forall_forall. intros x Hx. apply repeat_spec in Hx. lra.
Defined.

(** ** The attenuation factor on nonnegative cutoffs *)

(** For a nonnegative cutoff the factor lies between 0.5 and 1, and it never
    decreases when the cutoff is raised. *)
Theorem attenuation_range_monotone (c1 c2 : R) :
  (0 <= c1 -> 0.5 <= attenuation c1 <= 1)
  /\ (c1 <= c2 -> attenuation c1 <= attenuation c2).
Proof.
  unfold attenuation, filterEffect, JsMath.max. split.
  - intros Hc. unfold Rmax. destruct (Rle_dec 0 (1 - c1 / 5000)); lra.
  - intros Hle.
    assert (Rmax 0 (1 - c2 / 5000) <= Rmax 0 (1 - c1 / 5000)).
    { apply Rmax_lub; [apply Rmax_l|].
      apply Rle_trans with (1 - c1 / 5000); [lra|apply Rmax_r]. }
    lra.
Qed.

Lemma attenuation_range_monotone_witness :
  0.5 <= attenuation 1000 <= 1 /\ attenuation 1000 <= attenuation 2000.
Proof.
  split.
  - apply (attenuation_range_monotone 1000 2000). lra.
  - apply (attenuation_range_monotone 1000 2000). lra.
Defined.

(** ** The mix of several notes *)

Lemma fold_add_map (g : R -> R) (l : list R) :
  forall acc,
    fold_left (fun y f => y + g f) l acc = fold_left Rplus (map g l) acc.
Proof. induction l as [|x xs IH]; intros acc; [reflexivity|apply IH]. Qed.

(** The value before the filter step is the arithmetic mean of the samples
    of the active notes; several notes of one frequency give the trace of a
    single one. *)
Theorem mixed_is_mean (wf : string) (time : R) (freqs : list R) (i : nat) :
  (freqs <> [] ->
   mixed wf time freqs i
   = mean (map (fun f => waveSample wf (phase i time f)) freqs))
  /\ (forall f n,
         mixed wf time (repeat f (S n)) i = waveSample wf (phase i time f)).
Proof.
  split.
  - intros Hne. unfold mixed, mixSum, mean.
    rewrite fold_add_map, length_map, (max1_length _ freqs Hne). reflexivity.
  - intros f n. unfold mixed, mixSum.
    rewrite max1_length by discriminate. rewrite repeat_length.
    set (v := waveSample wf (phase i time f)).
    assert (forall k acc,
               fold_left (fun y freq => y + waveSample wf (phase i time freq))
                         (repeat f k) acc = acc + INR k * v) as Hsum.
    { induction k as [|k IH]; intros acc.
      - cbn. lra.
      - cbn [repeat fold_left]. rewrite IH, S_INR. fold v. lra. }
    rewrite Hsum.
    assert (0 < INR (S n)) by (apply lt_0_INR; lia).
    field. lra.
Qed.

Lemma mixed_is_mean_witness :
  mixed "square" 1 [440; 220] 7
  = mean (map (fun f => waveSample "square" (phase 7 1 f)) [440; 220]).
Proof. apply (mixed_is_mean "square" 1 [440; 220] 7). discriminate. Defined.

(** ** Periods *)

Lemma rem1_shift (x : R) : 0 <= x -> JsMath.rem (x + 1) 1 = JsMath.rem x 1.
Proof.
  intros Hx. unfold JsMath.rem, JsMath.trunc.
  replace ((x + 1) / 1) with (x + 1) by field.
  replace (x / 1) with x by field.
  destruct (Rle_dec 0 (x + 1)) as [_|Hn]; [|lra].
  destruct (Rle_dec 0 x) as [_|Hn]; [|lra].
  rewrite (Zfloor_addz 1 x), plus_IZR. lra.
Qed.

Lemma waveSample_period (wf : string) (t : R) :
  0 <= t -> waveSample wf (t + 2 * PI) = waveSample wf t.
Proof.
  intros Ht. unfold waveSample.
  assert (sin (t + 2 * PI) = sin t) as Hsin.
  { replace (t + 2 * PI) with (t + 2 * INR 1 * PI) by (cbn [INR]; ring).
    apply sin_period. }
  assert ((t + 2 * PI) / (2 * PI) = t / (2 * PI) + 1) as Hturn.
  { pose proof PI_RGT_0. field. lra. }
  rewrite Hsin, Hturn, (rem1_shift _ (turns_nonneg t Ht)). reflexivity.
Qed.

Lemma phase_half_width (i : nat) (time freq : R) :
  phase (i + 450) time freq = phase i time freq + 2 * PI.
Proof.
  unfold phase, samples. rewrite plus_INR, !INR_IZR_INZ.
  change (Z.of_nat 450) with 450%Z. change (Z.of_nat 900) with 900%Z.
  field.
Qed.

(** For the continuous waveforms (sine, triangle and the default branch)
    the sample has period [2 * PI] on nonnegative phases, and the phase
    advances by [4 * PI] across the buffer whatever the frequencies are: on
    the exact values the raw trace holds two identical periods,
    [raw[i + 450] = raw[i]].  The square and sawtooth waveforms jump at the
    period boundary, where the rounded phase of the code may fall on either
    side; they are left out. *)
Theorem raw_trace_two_periods (wf : string) (cutoff time : R)
    (freqs : list R) (i : nat) :
  wf <> "square"%string ->
  wf <> "sawtooth"%string ->
  0 <= time ->
  Forall (fun f => 0 <= f) freqs ->
  (i + 450 <= samples)%nat ->
  (forall f, phase (i + 450) time f = phase i time f + 2 * PI)
  /\ (forall t, 0 <= t -> waveSample wf (t + 2 * PI) = waveSample wf t)
  /\ nth (i + 450) (rawBuffer wf cutoff time freqs) 0
     = nth i (rawBuffer wf cutoff time freqs) 0.
Proof.
  intros _ _ Ht Hall Hi.
  split; [intros f; apply phase_half_width|].
  split; [intros t; apply waveSample_period|].
  assert (forall acc,
             fold_left (fun y f => y + waveSample wf (phase (i + 450) time f))
                       freqs acc
             = fold_left (fun y f => y + waveSample wf (phase i time f))
                         freqs acc) as Hsum.
  { induction Hall as [|f fs Hf _ IH]; intros acc; [reflexivity|].
    cbn [fold_left].
    rewrite phase_half_width,
      (waveSample_period wf _ (phase_nonneg i time f Ht Hf)).
    apply IH. }
  assert (forall j, (j <= samples)%nat ->
                    nth j (rawBuffer wf cutoff time freqs) 0
                    = rawAt wf cutoff time freqs j) as Hnth.
  { intros j Hj. unfold rawBuffer.
    rewrite (nth_indep _ 0 (rawAt wf cutoff time freqs 0))
      by (rewrite length_map, length_seq; lia).
    rewrite map_nth, seq_nth by lia. reflexivity. }
  rewrite !Hnth by lia.
  unfold rawAt, mixed, mixSum. rewrite Hsum. reflexivity.
Qed.

Lemma raw_trace_two_periods_witness :
  nth (100 + 450) (rawBuffer "triangle" 1000 3 [440; 330]) 0
  = nth 100 (rawBuffer "triangle" 1000 3 [440; 330]) 0.
Proof.
  apply (raw_trace_two_periods "triangle" 1000 3 [440; 330] 100).
  - discriminate.
  - discriminate.
  - lra.
  - repeat (apply Forall_cons; [lra|]). apply Forall_nil.
  - unfold samples. lia.
Defined.

(** ** Negative phases *)

(** The remainder keeps the sign of the dividend, so on a negative phase
    (a negative frequency or clock) the sawtooth lies in (-3, -1] and the
    triangle in [1, 5): both leave [-1, 1] except at its border. *)
Theorem negative_phase_leaves_unit_range (t : R) :
  t < 0 ->
  -3 < waveSample "sawtooth" t <= -1
  /\ 1 <= waveSample "triangle" t < 5.
Proof.
  intros Ht.
  assert (-1 < JsMath.rem (t / (2 * PI)) 1 <= 0) as Hrem.
  { pose proof PI_RGT_0 as Hpi.
    assert (t / (2 * PI) < 0) as Hx.
    { unfold Rdiv. rewrite <- (Rmult_0_l (/ (2 * PI))).
      apply Rmult_lt_compat_r; [apply Rinv_0_lt_compat; lra|exact Ht]. }
    set (x := t / (2 * PI)) in *.
    unfold JsMath.rem, JsMath.trunc.
    replace (x / 1) with x by field.
    destruct (Rle_dec 0 x) as [Hp|_]; [lra|].
    pose proof (Zceil_bound x). lra. }
  unfold waveSample. cbn [String.eqb Ascii.eqb Bool.eqb].
  split; [lra|].
  unfold JsMath.abs, Rabs. destruct (Rcase_abs _); lra.
Qed.

Lemma negative_phase_leaves_unit_range_witness :
  -3 < waveSample "sawtooth" (-1) <= -1
  /\ 1 <= waveSample "triangle" (-1) < 5.
Proof. apply (negative_phase_leaves_unit_range (-1)). lra. Defined.

(** ** An active frame *)

Lemma frame_active (p : Props) (time : R) (h : Host) :
  activeNotesRef h <> [] ->
  frame p time h
  = ClearRect 0 0 (INR (canvasWidth h)) (INR (canvasHeight h))
    :: gridCommands (canvasWidth h) (canvasHeight h)
    ++ curveCommands (canvasWidth h) (canvasHeight h)
         (smoothed (synthesize p time (activeNoteFrequencies h))).
Proof.
  intros Hact. unfold frame. rewrite drawWaveform_active by exact Hact.
  unfold requestAnimationFrame, issue. cbn [drawn].
  rewrite <- app_assoc. apply frame_of_issue.
Qed.

(** A trace is drawn exactly on the ticks on which a note is active. *)
Theorem trace_drawn_iff_note_active (p : Props) (time : R) (h : Host) :
  drawsCurve (frame p time h) = true <-> activeNotesRef h <> [].
Proof.
  split.
  - intros Hdraw Hidle. rewrite (frame_idle p time h Hidle) in Hdraw.
    discriminate Hdraw.
  - intros Hact. rewrite (frame_active p time h Hact).
    unfold drawsCurve. apply existsb_exists.
    exists (SetStrokeStyle "#00ff88"). split; [|reflexivity].
    right. apply in_or_app. right. unfold curveCommands. left. reflexivity.
Qed.

(** ** The fallback frequency in a draw call *)

Lemma frame_of_frameRaw (p : Props) (time : R) (h : Host) :
  frame p time h
  = ClearRect 0 0 (INR (canvasWidth h)) (INR (canvasHeight h))
    :: match frameRaw p time h with
       | None => blankCommands (canvasWidth h) (canvasHeight h)
       | Some raw =>
           gridCommands (canvasWidth h) (canvasHeight h)
           ++ curveCommands (canvasWidth h) (canvasHeight h) (smoothed raw)
       end.
Proof.
  destruct (activeNotesRef h) as [|n ns] eqn:Hnotes.
  - rewrite (frame_idle p time h Hnotes).
    unfold frameRaw, activeNoteFrequencies. rewrite Hnotes. reflexivity.
  - assert (activeNotesRef h <> []) as Hact by (rewrite Hnotes; discriminate).
    rewrite (frame_active p time h Hact).
    unfold frameRaw, activeNoteFrequencies. rewrite Hnotes. reflexivity.
Qed.

Lemma frameRaw_idle (p : Props) (time : R) (h : Host) :
  activeNoteFrequencies h = [] -> frameRaw p time h = None.
Proof. intros Hnone. unfold frameRaw. rewrite Hnone. reflexivity. Qed.

Lemma frameRaw_single (p : Props) (time : R) (h : Host) (f : R) :
  activeNoteFrequencies h = [f] ->
  frameRaw p time h
  = Some (rawBuffer (waveform p) (filterCutoff p) time [f]).
Proof. intros Hone. unfold frameRaw. rewrite Hone. reflexivity. Qed.

Lemma drawsCurve_of_raw (cw ch : nat) (raw : list R) (c : DrawCmd) :
  drawsCurve (c :: gridCommands cw ch ++ curveCommands cw ch (smoothed raw))
  = true.
Proof.
  unfold drawsCurve. apply existsb_exists.
  exists (SetStrokeStyle "#00ff88"). split; [|reflexivity].
  right. apply in_or_app. right. unfold curveCommands. left. reflexivity.
Qed.

(** C9, as stated, fails: with fallback 220 a draw call on the empty set
    produces no raw buffer and no trace, while a draw call on the set [{220}]
    produces the buffer synthesized from 220 and a trace. *)
Lemma empty_set_is_not_fallback_set_counterexample :
  let p := mkProps 220 "sawtooth" 1000 in
  let single := mkHost 600 180 [("A3"%string, 220)] None 1 [] [] in
  activeNoteFrequencies initialHost = []
  /\ activeNoteFrequencies single = [220]
  /\ frameRaw p 0 initialHost = None
  /\ frameRaw p 0 single = Some (rawBuffer "sawtooth" 1000 0 [220])
  /\ drawsCurve (frame p 0 initialHost) = false
  /\ drawsCurve (frame p 0 single) = true.
Proof.
  intros p single.
  assert (activeNoteFrequencies single = [220]) as Hone by reflexivity.
  split; [reflexivity|]. split; [exact Hone|].
  split; [apply frameRaw_idle; reflexivity|].
  split; [apply (frameRaw_single p 0 single 220 Hone)|].
  split.
  - rewrite (frame_idle p 0 initialHost eq_refl). reflexivity.
  - rewrite frame_of_frameRaw, (frameRaw_single p 0 single 220 Hone).
    apply drawsCurve_of_raw.
Qed.

(** C9, amended.  For every fallback frequency, waveform, filterCutoff and
    clockSeconds: a draw call on an empty activeFrequencies set returns
    before the sample-synthesis step, so it produces no raw buffer and draws
    the blank frame without a trace; a draw call on activeFrequencies = {f}
    produces the raw buffer synthesized from the single frequency [f],
    whatever the fallback is, and draws a trace through its smoothing. *)
Theorem fallback_not_reached_on_empty_set (p : Props) (time : R)
    (idle single : Host) (f : R) :
  activeNoteFrequencies idle = [] ->
  activeNoteFrequencies single = [f] ->
  frameRaw p time idle = None
  /\ frame p time idle
     = [ClearRect 0 0 (INR (canvasWidth idle)) (INR (canvasHeight idle));
        SetFillStyle "#1a1a1a";
        FillRect 0 0 (INR (canvasWidth idle)) (INR (canvasHeight idle))]
  /\ drawsCurve (frame p time idle) = false
  /\ frameRaw p time single
     = Some (rawBuffer (waveform p) (filterCutoff p) time [f])
  /\ frame p time single
     = ClearRect 0 0 (INR (canvasWidth single)) (INR (canvasHeight single))
       :: gridCommands (canvasWidth single) (canvasHeight single)
       ++ curveCommands (canvasWidth single) (canvasHeight single)
            (smoothed (rawBuffer (waveform p) (filterCutoff p) time [f]))
  /\ drawsCurve (frame p time single) = true.
Proof.
  intros Hnone Hone.
  pose proof (frameRaw_idle p time idle Hnone) as Hri.
  pose proof (frameRaw_single p time single f Hone) as Hrs.
  assert (frame p time idle
          = [ClearRect 0 0 (INR (canvasWidth idle)) (INR (canvasHeight idle));
             SetFillStyle "#1a1a1a";
             FillRect 0 0 (INR (canvasWidth idle)) (INR (canvasHeight idle))])
    as Hfi by (rewrite frame_of_frameRaw, Hri; reflexivity).
  assert (frame p time single
          = ClearRect 0 0 (INR (canvasWidth single))
                      (INR (canvasHeight single))
            :: gridCommands (canvasWidth single) (canvasHeight single)
            ++ curveCommands (canvasWidth single) (canvasHeight single)
                 (smoothed (rawBuffer (waveform p) (filterCutoff p) time [f])))
    as Hfs by (rewrite frame_of_frameRaw, Hrs; reflexivity).
  split; [exact Hri|]. split; [exact Hfi|].
  split; [rewrite Hfi; reflexivity|].
  split; [exact Hrs|]. split; [exact Hfs|].
  rewrite Hfs. apply drawsCurve_of_raw.
Qed.

Lemma fallback_not_reached_on_empty_set_witness :
  let p := mkProps 220 "sine" 5000 in
  let idle := mkHost 600 180 [] None 1 [] [] in
  let single := mkHost 600 180 [("A3"%string, 220)] None 1 [] [] in
  frameRaw p 4 idle = None
  /\ frame p 4 idle
     = [ClearRect 0 0 (INR (canvasWidth idle)) (INR (canvasHeight idle));
        SetFillStyle "#1a1a1a";
        FillRect 0 0 (INR (canvasWidth idle)) (INR (canvasHeight idle))]
  /\ drawsCurve (frame p 4 idle) = false
  /\ frameRaw p 4 single
     = Some (rawBuffer (waveform p) (filterCutoff p) 4 [220])
  /\ frame p 4 single
     = ClearRect 0 0 (INR (canvasWidth single)) (INR (canvasHeight single))
       :: gridCommands (canvasWidth single) (canvasHeight single)
       ++ curveCommands (canvasWidth single) (canvasHeight single)
            (smoothed (rawBuffer (waveform p) (filterCutoff p) 4 [220]))
  /\ drawsCurve (frame p 4 single) = true.
Proof.
  intros p idle single.
  apply (fallback_not_reached_on_empty_set p 4 idle single 220);
    reflexivity.
Defined.

Lemma rawBuffer_length (wf : string) (cutoff time : R) (freqs : list R) :
  length (rawBuffer wf cutoff time freqs) = (samples + 1)%nat.
Proof. unfold rawBuffer. now rewrite length_map, length_seq. Qed.

Lemma mixed_unit (wf : string) (time : R) (freqs : list R) (i : nat) :
  freqs <> [] -> Forall (fun f => 0 <= f) freqs -> 0 <= time ->
  -1 <= mixed wf time freqs i <= 1.
Proof.
  intros Hne Hall Ht. unfold mixed, mixSum. rewrite (max1_length _ freqs Hne).
  pose proof (mixSum_bound_from wf time i freqs Ht Hall 0) as Hb.
  assert (0 < INR (length freqs)) as Hpos.
  { destruct freqs; [contradiction|]. apply lt_0_INR. cbn. lia. }
  set (s := fold_left _ _ _) in *. set (n := INR (length freqs)) in *.
  split; apply Rmult_le_reg_r with n; try exact Hpos;
    unfold Rdiv; rewrite Rmult_assoc, Rinv_l by lra; lra.
Qed.

Lemma attenuation_unit (cutoff : R) : 0 <= cutoff -> 0.5 <= attenuation cutoff <= 1.
Proof.
  intros Hc. unfold attenuation, filterEffect, JsMath.max, Rmax.
  destruct (Rle_dec 0 (1 - cutoff / 5000)); lra.
Qed.

Lemma rawBuffer_unit (wf : string) (cutoff time : R) (freqs : list R) :
  freqs <> [] -> Forall (fun f => 0 <= f) freqs -> 0 <= time -> 0 <= cutoff ->
  Forall (fun v => -1 <= v <= 1) (rawBuffer wf cutoff time freqs).
Proof.
  intros Hne Hall Ht Hc. unfold rawBuffer. rewrite Forall_map.
  apply Forall_forall. intros i _. unfold rawAt.
  pose proof (mixed_unit wf time freqs i Hne Hall Ht).
  pose proof (attenuation_unit cutoff Hc). nra.
Qed.

Lemma curve_ys_in_margin (cw ch : nat) (sm : list R) :
  Forall (fun v => -1 <= v <= 1) sm ->
  Forall (fun c =>
            Forall (fun y => 0.1 * INR ch <= y <= 0.9 * INR ch) (plottedYs c))
         (curveCommands cw ch sm).
Proof.
  intros Hsm.
  assert (forall i, 0.1 * INR ch <= toCanvasY ch (nth i sm 0) <= 0.9 * INR ch)
    as Hy by (intros i; apply toCanvasY_range, nth_within_unit, Hsm).
  apply Forall_forall. intros c Hc. unfold curveCommands in Hc.
  repeat (apply in_app_or in Hc; destruct Hc as [Hc|Hc]).
  - repeat (destruct Hc as [<-|Hc]; [apply Forall_nil|]). destruct Hc.
  - destruct Hc as [<-|[]]. cbn [plottedYs].
    apply Forall_cons; [apply Hy|apply Forall_nil].
  - apply in_map_iff in Hc. destruct Hc as (i & <- & _).
    unfold curveSegment. cbn [plottedYs].
    pose proof (Hy i). pose proof (Hy (i + 1)%nat).
    apply Forall_cons; [lra|]. apply Forall_cons; [lra|apply Forall_nil].
  - destruct Hc as [<-|[<-|[]]]; cbn [plottedYs]; [|apply Forall_nil].
    apply Forall_cons; [apply Hy|apply Forall_nil].
Qed.

Lemma synthesize_unit (p : Props) (time : R) (freqs : list R) :
  freqs <> [] -> Forall (fun f => 0 <= f) freqs ->
  0 <= time -> 0 <= filterCutoff p ->
  Forall (fun v => -1 <= v <= 1) (synthesize p time freqs).
Proof.
  intros Hne Hall Ht Hc. unfold synthesize.
  rewrite scopeFrequencies_active by exact Hne.
  now apply rawBuffer_unit.
Qed.

Lemma smoothed_unit (raw : list R) :
  length raw = (samples + 1)%nat ->
  Forall (fun v => -1 <= v <= 1) raw ->
  Forall (fun v => -1 <= v <= 1) (smoothed raw).
Proof.
  intros Hlen Hall. unfold smoothed. change windowSize with (Z.of_nat 6).
  now apply smoothBuffer_within.
Qed.

(** With nonnegative note frequencies, clock and cutoff, every raw sample of
    an active frame lies in [-1, 1], so does every smoothed sample, and every
    vertical coordinate of the trace keeps the 10% margin at the top and at
    the bottom of the canvas. *)
Theorem active_frame_within_margins (p : Props) (time : R) (h : Host) :
  activeNotesRef h <> [] ->
  Forall (fun f => 0 <= f) (activeNoteFrequencies h) ->
  0 <= time ->
  0 <= filterCutoff p ->
  let raw := synthesize p time (activeNoteFrequencies h) in
  Forall (fun v => -1 <= v <= 1) raw
  /\ Forall (fun v => -1 <= v <= 1) (smoothed raw)
  /\ Forall (fun c =>
               Forall (fun y => 0.1 * INR (canvasHeight h) <= y
                                <= 0.9 * INR (canvasHeight h))
                      (plottedYs c))
            (curveCommands (canvasWidth h) (canvasHeight h) (smoothed raw)).
Proof.
  intros Hact Hall Ht Hc raw.
  assert (Forall (fun v => -1 <= v <= 1) raw) as Hraw.
  { subst raw. apply synthesize_unit; try assumption.
    now apply activeNoteFrequencies_nonempty. }
  assert (Forall (fun v => -1 <= v <= 1) (smoothed raw)) as Hsm.
  { apply smoothed_unit; [|exact Hraw].
    subst raw. unfold synthesize. apply rawBuffer_length. }
  split; [exact Hraw|]. split; [exact Hsm|].
  now apply curve_ys_in_margin.
Qed.

Lemma active_frame_within_margins_witness :
  let h := mkHost 600 180 [("A4"%string, 440); ("C5"%string, 523.25)]
                  None 1 [] [] in
  let raw := synthesize initialProps 2 (activeNoteFrequencies h) in
  Forall (fun v => -1 <= v <= 1) raw
  /\ Forall (fun v => -1 <= v <= 1) (smoothed raw)
  /\ Forall (fun c =>
               Forall (fun y => 0.1 * INR (canvasHeight h) <= y
                                <= 0.9 * INR (canvasHeight h))
                      (plottedYs c))
            (curveCommands (canvasWidth h) (canvasHeight h) (smoothed raw)).
Proof.
  intros h.
  apply (active_frame_within_margins initialProps 2 h).
  - discriminate.
  - unfold activeNoteFrequencies. cbn [activeNotesRef h map snd].
    repeat (apply Forall_cons; [lra|]). apply Forall_nil.
  - lra.
  - cbn [filterCutoff initialProps]. lra.
Defined.

(** ** Nothing is drawn off the canvas *)

Lemma x_on_canvas (cw i : nat) :
  (i <= samples)%nat -> 0 <= (INR cw / INR samples) * INR i <= INR cw.
Proof.
  intros Hi.
  assert (0 < INR samples) as Hs by (apply lt_0_INR; unfold samples; lia).
  pose proof (pos_INR cw) as Hw. pose proof (pos_INR i) as H0.
  pose proof (le_INR _ _ Hi) as Hle.
  assert (0 <= INR i / INR samples <= 1) as Hr.
  { split.
    - apply Rmult_le_pos; [exact H0|]. left. now apply Rinv_0_lt_compat.
    - apply Rmult_le_reg_r with (INR samples); [exact Hs|].
      unfold Rdiv. rewrite Rmult_assoc, Rinv_l by lra. lra. }
  replace (INR cw / INR samples * INR i) with (INR cw * (INR i / INR samples))
    by (field; lra).
  nra.
Qed.

Lemma grid_on_canvas (cw ch : nat) :
  Forall (onCanvas cw ch) (gridCommands cw ch).
Proof.
  pose proof (pos_INR cw) as Hw. pose proof (pos_INR ch) as Hh.
  unfold gridCommands. apply Forall_app. split.
  - repeat (apply Forall_cons; [split; apply Forall_nil|]). apply Forall_nil.
  - apply Forall_flat_map, Forall_forall. intros i Hi.
    apply in_seq in Hi.
    assert (0 <= INR ch / 10 * INR i <= INR ch) as Hy.
    { pose proof (pos_INR i) as H0.
      assert (INR i <= 10) as H10.
      { replace 10 with (INR 10) by (cbn [INR]; lra). apply le_INR. lia. }
      nra. }
    repeat (apply Forall_cons;
            [split; cbn [plottedXs plottedYs];
             repeat (apply Forall_cons; [lra|]); apply Forall_nil|]).
    apply Forall_nil.
Qed.

Lemma curve_xs_on_canvas (cw ch : nat) (sm : list R) :
  Forall (fun c => Forall (fun x => 0 <= x <= INR cw) (plottedXs c))
         (curveCommands cw ch sm).
Proof.
  pose proof (pos_INR cw) as Hw.
  apply Forall_forall. intros c Hc. unfold curveCommands in Hc.
  repeat (apply in_app_or in Hc; destruct Hc as [Hc|Hc]).
  - repeat (destruct Hc as [<-|Hc]; [apply Forall_nil|]). destruct Hc.
  - destruct Hc as [<-|[]]. cbn [plottedXs].
    apply Forall_cons; [lra|apply Forall_nil].
  - apply in_map_iff in Hc. destruct Hc as (i & <- & Hi).
    apply in_seq in Hi. unfold curveSegment. cbn [plottedXs].
    assert (i <= samples)%nat as H1 by (unfold samples in *; lia).
    assert (i + 1 <= samples)%nat as H2 by (unfold samples in *; lia).
    pose proof (x_on_canvas cw i H1). pose proof (x_on_canvas cw (i + 1) H2).
    apply Forall_cons; [lra|]. apply Forall_cons; [lra|apply Forall_nil].
  - destruct Hc as [<-|[<-|[]]]; cbn [plottedXs]; [|apply Forall_nil].
    apply Forall_cons; [lra|apply Forall_nil].
Qed.

Lemma trace_on_canvas (cw ch : nat) (sm : list R) :
  Forall (fun v => -1 <= v <= 1) sm ->
  Forall (onCanvas cw ch) (gridCommands cw ch ++ curveCommands cw ch sm).
Proof.
  intros Hsm. apply Forall_app. split; [apply grid_on_canvas|].
  pose proof (curve_ys_in_margin cw ch sm Hsm) as Hy.
  pose proof (curve_xs_on_canvas cw ch sm) as Hx.
  rewrite Forall_forall in *. intros c Hin. split; [now apply Hx|].
  specialize (Hy c Hin). pose proof (pos_INR ch).
  rewrite Forall_forall in *. intros y Hyin. specialize (Hy y Hyin). lra.
Qed.

(** With nonnegative note frequencies, clock and cutoff, every point an
    active frame plots (grid lines, sample points, control points) lies on
    the canvas: [0 <= x <= width] and [0 <= y <= height]. *)
Theorem active_frame_on_canvas (p : Props) (time : R) (h : Host) :
  activeNotesRef h <> [] ->
  Forall (fun f => 0 <= f) (activeNoteFrequencies h) ->
  0 <= time ->
  0 <= filterCutoff p ->
  Forall (onCanvas (canvasWidth h) (canvasHeight h)) (frame p time h).
Proof.
  intros Hact Hall Ht Hc. rewrite (frame_active p time h Hact).
  apply Forall_cons; [split; apply Forall_nil|].
  apply trace_on_canvas, smoothed_unit.
  - unfold synthesize. apply rawBuffer_length.
  - apply synthesize_unit; try assumption.
    now apply activeNoteFrequencies_nonempty.
Qed.

Lemma active_frame_on_canvas_witness :
  let h := mkHost 600 180 [("A4"%string, 440)] None 1 [] [] in
  Forall (onCanvas (canvasWidth h) (canvasHeight h)) (frame initialProps 2 h).
Proof.
  intros h.
  apply (active_frame_on_canvas initialProps 2 h).
  - discriminate.
  - unfold activeNoteFrequencies. cbn [activeNotesRef h map snd].
    repeat (apply Forall_cons; [lra|]). apply Forall_nil.
  - lra.
  - cbn [filterCutoff initialProps]. lra.
Defined.

(** * The scope under arbitrary events *)

Lemma draw_establishes_inv (p : Props) (time : R) (h : Host) :
  pending h = [] -> (0 < nextHandle h)%nat ->
  ScopeInv (drawWaveform p time h)
  /\ activeNotesRef (drawWaveform p time h) = activeNotesRef h
  /\ (activeNotesRef h <> [] -> Looping (drawWaveform p time h))
  /\ (activeNotesRef h = [] -> pending (drawWaveform p time h) = []).
Proof.
  intros Hp Hpos.
  destruct (activeNotesRef h) as [|n ns] eqn:Hnotes.
  - rewrite drawWaveform_idle by exact Hnotes.
    unfold ScopeInv. cbn [issue pending nextHandle activeNotesRef].
    repeat split; auto. intros Hne. now contradiction Hne.
  - assert (activeNotesRef h <> []) as Hact by (rewrite Hnotes; discriminate).
    destruct (mount_starts_loop p time h Hact Hp Hpos) as [Hloop Hn].
    unfold mountEffect in *.
    destruct (pending_active p time h Hact) as (_ & _ & _ & Hnext).
    unfold ScopeInv. rewrite Hnext, Hn.
    repeat split; auto; try lia. discriminate.
Qed.

Lemma refresh_keeps_inv (p : Props) (time : R) (h : Host) :
  ScopeInv h ->
  ScopeInv (refresh p time h)
  /\ activeNotesRef (refresh p time h) = activeNotesRef h.
Proof.
  intros [[Hp|(id & Hp & Hr & Hid)] Hpos]; unfold refresh; rewrite Hp.
  - split; [|reflexivity]. split; [now left|exact Hpos].
  - set (h' := mkHost _ _ _ _ _ _ _).
    destruct (draw_establishes_inv p time h' eq_refl Hpos) as (Hinv & Hn & _).
    split; [exact Hinv|exact Hn].
Qed.

Lemma cleanup_keeps_inv (h : Host) :
  ScopeInv h ->
  pending (cleanupEffect h) = []
  /\ nextHandle (cleanupEffect h) = nextHandle h
  /\ activeNotesRef (cleanupEffect h) = activeNotesRef h.
Proof.
  intros [[Hp|Hloop] Hpos].
  - unfold cleanupEffect. destruct (animationFrameRef h) as [[|id]|];
      cbn [cancelAnimationFrame pending nextHandle activeNotesRef];
      rewrite ?Hp; auto.
  - split; [now apply cleanup_cancels|].
    unfold cleanupEffect. destruct (animationFrameRef h) as [[|id]|]; auto.
Qed.

Lemma rerun_keeps_inv (p : Props) (time : R) (h : Host) :
  ScopeInv h ->
  ScopeInv (rerunEffect p time h)
  /\ activeNotesRef (rerunEffect p time h) = activeNotesRef h
  /\ (activeNotesRef h <> [] -> Looping (rerunEffect p time h))
  /\ (activeNotesRef h = [] -> pending (rerunEffect p time h) = []).
Proof.
  intros Hinv. destruct (cleanup_keeps_inv h Hinv) as (Hp & Hnext & Hn).
  unfold rerunEffect, mountEffect.
  assert (0 < nextHandle (cleanupEffect h))%nat as Hpos
      by (rewrite Hnext; apply Hinv).
  destruct (draw_establishes_inv p time (cleanupEffect h) Hp Hpos)
    as (H1 & H2 & H3 & H4).
  rewrite Hn in *. auto.
Qed.

Lemma scopeStep_keeps_inv (st : Props * Host) (e : ScopeEvent) :
  ScopeInv (snd st) -> ScopeInv (snd (scopeStep st e)).
Proof.
  destruct st as [p h]. cbn [snd]. intros Hinv.
  destruct e as [note f|note|t|p' t]; cbn [scopeStep snd].
  - exact Hinv.
  - exact Hinv.
  - now apply refresh_keeps_inv.
  - now apply rerun_keeps_inv.
Qed.

Lemma scope_run_keeps_inv (events : list ScopeEvent) :
  forall st, ScopeInv (snd st) -> ScopeInv (snd (fold_left scopeStep events st)).
Proof.
  induction events as [|e es IH]; intros st Hinv; [exact Hinv|].
  cbn [fold_left]. apply IH. now apply scopeStep_keeps_inv.
Qed.

(** However note changes, display refreshes and re-runs of the effect
    interleave, at most one refresh request is pending, and a pending
    request is the one [animationFrameRef] holds. *)
Theorem scope_one_request_pending (events : list ScopeEvent)
    (p : Props) (h : Host) :
  pending h = [] ->
  (0 < nextHandle h)%nat ->
  let h' := snd (fold_left scopeStep events (p, h)) in
  (length (pending h') <= 1)%nat
  /\ (forall id, In id (pending h') -> animationFrameRef h' = Some id).
Proof.
  intros Hp Hpos h'.
  assert (ScopeInv h') as [[Hnone|(id & Hone & Hr & _)] _].
  { apply scope_run_keeps_inv. split; [now left|exact Hpos]. }
  - rewrite Hnone. cbn. split; [lia|tauto].
  - rewrite Hone. cbn. split; [lia|]. intros j [<-|[]]. exact Hr.
Qed.

Lemma scope_one_request_pending_witness :
  let events := [NoteSet "A4" 440; Rerun initialProps 1; Tick 2;
                 NoteDelete "A4"; Tick 3; Rerun initialProps 4] in
  let h' := snd (fold_left scopeStep events (initialProps, initialHost)) in
  (length (pending h') <= 1)%nat
  /\ (forall id, In id (pending h') -> animationFrameRef h' = Some id).
Proof.
  intros events.
  apply (scope_one_request_pending events initialProps initialHost).
  - reflexivity.
  - cbn. lia.
Defined.

(** After any such history, once the effect has run again the draw loop is
    armed exactly if a note is active: no restart is lost and no loop is left
    running on an empty set. *)
Theorem rerun_arms_loop_iff_active (events : list ScopeEvent)
    (p p' : Props) (time : R) (h : Host) :
  pending h = [] ->
  (0 < nextHandle h)%nat ->
  let h' := snd (fold_left scopeStep (events ++ [Rerun p' time]) (p, h)) in
  (Looping h' <-> activeNotesRef h' <> [])
  /\ (pending h' = [] <-> activeNotesRef h' = []).
Proof.
  intros Hp Hpos h'. subst h'. rewrite fold_left_app.
  set (st := fold_left scopeStep events (p, h)).
  assert (ScopeInv (snd st)) as Hinv
      by (apply scope_run_keeps_inv; split; [now left|exact Hpos]).
  destruct st as [q g]. cbn [fold_left scopeStep snd] in *.
  destruct (rerun_keeps_inv p' time g Hinv) as (_ & Hn & Hact & Hidle).
  rewrite Hn.
  destruct (activeNotesRef g) as [|n ns] eqn:Hnotes.
  - specialize (Hidle eq_refl). split; split; auto.
    intros (id & Hone & _). rewrite Hidle in Hone. discriminate.
  - assert (Looping (rerunEffect p' time g)) as Hloop
        by (apply Hact; discriminate).
    split; split; auto; try discriminate.
    destruct Hloop as (id & Hone & _). rewrite Hone. discriminate.
Qed.

Lemma rerun_arms_loop_iff_active_witness :
  let h' := snd (fold_left scopeStep
                   ([NoteSet "A4" 440; Tick 1] ++ [Rerun initialProps 2])
                   (initialProps, initialHost)) in
  (Looping h' <-> activeNotesRef h' <> [])
  /\ (pending h' = [] <-> activeNotesRef h' = []).
Proof.
  apply (rerun_arms_loop_iff_active [NoteSet "A4" 440; Tick 1]
           initialProps initialProps 2 initialHost).
  - reflexivity.
  - cbn. lia.
Defined.

(** * Knobs *)

Lemma clamp_within (lo hi x : R) :
  lo <= hi -> lo <= JsMath.max lo (Rmin hi x) <= hi.
Proof.
  intros Hle. unfold JsMath.max. split; [apply Rmax_l|].
  apply Rmax_lub; [exact Hle|apply Rmin_l].
Qed.

Lemma clamp_inside (lo hi x : R) :
  lo <= x <= hi -> JsMath.max lo (Rmin hi x) = x.
Proof.
  intros [Hlo Hhi]. unfold JsMath.max.
  rewrite Rmin_right by exact Hhi. now apply Rmax_right.
Qed.

(** [onChange] is called only while the knob is dragged, and then with a
    value between [min] and [max], wherever the drag started and however far
    the mouse has moved. *)
Theorem knob_drag_clamped (min max clientY : R) (st : Knob.State) :
  (Knob.isDragging st = false ->
   Knob.handleMouseMove min max clientY st = None)
  /\ (Knob.isDragging st = true -> min <= max ->
      exists v, Knob.handleMouseMove min max clientY st = Some v
                /\ min <= v <= max).
Proof.
  unfold Knob.handleMouseMove. split; intros Hd; rewrite Hd; cbn [negb].
  - reflexivity.
  - intros Hle. eexists. split; [reflexivity|]. now apply clamp_within.
Qed.

Lemma knob_drag_clamped_witness :
  Knob.handleMouseMove 20 5000 300 (Knob.mkState false 100 1000) = None
  /\ exists v,
      Knob.handleMouseMove 20 5000 300 (Knob.mkState true 100 1000) = Some v
      /\ 20 <= v <= 5000.
Proof.
  split.
  - apply (knob_drag_clamped 20 5000 300 (Knob.mkState false 100 1000)).
    reflexivity.
  - apply (knob_drag_clamped 20 5000 300 (Knob.mkState true 100 1000)).
    + reflexivity.
    + lra.
Defined.

(** A drag started on a value within range follows the mouse linearly, the
    whole range taking 100 pixels: it returns the start value at the start
    height, [max] from 100 pixels up and [min] from 100 pixels down. *)
Theorem knob_travel (min max y0 value y : R) (st : Knob.State) :
  min <= value <= max ->
  let dragged := Knob.handleMouseMove min max y
                   (Knob.handleMouseDown y0 value st) in
  (min <= value + (y0 - y) / 100 * (max - min) <= max ->
   dragged = Some (value + (y0 - y) / 100 * (max - min)))
  /\ (y = y0 -> dragged = Some value)
  /\ (100 <= y0 - y -> dragged = Some max)
  /\ (y0 - y <= -100 -> dragged = Some min).
Proof.
  intros Hv dragged. subst dragged.
  unfold Knob.handleMouseMove, Knob.handleMouseDown.
  cbn [Knob.isDragging Knob.startY Knob.startValue negb].
  assert (min <= max) as Hle by lra.
  repeat split.
  - intros Hin. f_equal. now apply clamp_inside.
  - intros ->. f_equal. rewrite clamp_inside; [lra|].
    replace (value + (y0 - y0) / 100 * (max - min)) with value by lra. exact Hv.
  - intros Hup. f_equal. unfold JsMath.max.
    rewrite Rmin_left by nra. now apply Rmax_right.
  - intros Hdown. f_equal. unfold JsMath.max.
    assert (value + (y0 - y) / 100 * (max - min) <= min) as Hlow by nra.
    rewrite Rmin_right by lra. now apply Rmax_left.
Qed.

Lemma knob_travel_witness :
  let dragged y := Knob.handleMouseMove 0 100 y
                     (Knob.handleMouseDown 200 40 (Knob.mkState false 0 0)) in
  dragged 180 = Some (40 + (200 - 180) / 100 * (100 - 0))
  /\ dragged 200 = Some 40
  /\ dragged 50 = Some 100
  /\ dragged 400 = Some 0.
Proof.
  intros dragged.
  assert (0 <= 40 <= 100) as Hv by lra.
  split; [|split; [|split]].
  - apply (knob_travel 0 100 200 40 180 (Knob.mkState false 0 0) Hv). lra.
  - apply (knob_travel 0 100 200 40 200 (Knob.mkState false 0 0) Hv).
    reflexivity.
  - apply (knob_travel 0 100 200 40 50 (Knob.mkState false 0 0) Hv). lra.
  - apply (knob_travel 0 100 200 40 400 (Knob.mkState false 0 0) Hv). lra.
Defined.

(** The pointer turns from -135 degrees at [min] to 135 degrees at [max],
    and stays between them, growing with the value. *)
Theorem knob_rotation_range (min max v w : R) :
  min < max ->
  Knob.rotation min min max = -135
  /\ Knob.rotation max min max = 135
  /\ (min <= v <= max -> -135 <= Knob.rotation v min max <= 135)
  /\ (v <= w -> Knob.rotation v min max <= Knob.rotation w min max).
Proof.
  intros Hlt. unfold Knob.rotation, Knob.percentage.
  assert (0 < / (max - min)) as Hinv by (apply Rinv_0_lt_compat; lra).
  assert ((max - min) * / (max - min) = 1) as Hone by (apply Rinv_r; lra).
  unfold Rdiv. set (k := / (max - min)) in *.
  repeat split.
  - lra.
  - replace ((max - min) * k * 100 * / 100 * 270 - 135)
      with ((max - min) * k * 270 - 135) by lra.
    rewrite Hone. lra.
  - destruct H. assert (0 <= (v - min) * k) by (apply Rmult_le_pos; lra). lra.
  - destruct H. assert ((v - min) * k <= (max - min) * k)
      by (apply Rmult_le_compat_r; lra). lra.
  - intros Hvw. assert ((v - min) * k <= (w - min) * k)
      by (apply Rmult_le_compat_r; lra). lra.
Qed.

Lemma knob_rotation_range_witness :
  Knob.rotation 20 20 5000 = -135
  /\ Knob.rotation 5000 20 5000 = 135
  /\ -135 <= Knob.rotation 1000 20 5000 <= 135
  /\ Knob.rotation 1000 20 5000 <= Knob.rotation 2000 20 5000.
Proof.
  assert (20 < 5000) as Hlt by lra.
  split; [|split; [|split]].
  - apply (knob_rotation_range 20 5000 1000 2000 Hlt).
  - apply (knob_rotation_range 20 5000 1000 2000 Hlt).
  - apply (knob_rotation_range 20 5000 1000 2000 Hlt). lra.
  - apply (knob_rotation_range 20 5000 1000 2000 Hlt). lra.
Defined.

(** Whatever the CUTOFF knob (20 to 5000) passes to [setFilterCutoff], the
    scope's attenuation factor is [0.5 + cutoff/10000], between 0.502 and 1:
    the unclamped side of the filter effect is out of the knob's reach. *)
Theorem cutoff_knob_attenuation (clientY : R) (st : Knob.State) (cutoff : R) :
  Knob.handleMouseMove 20 5000 clientY st = Some cutoff ->
  20 <= cutoff <= 5000
  /\ attenuation cutoff = 0.5 + cutoff / 10000
  /\ 0.502 <= attenuation cutoff <= 1.
Proof.
  unfold Knob.handleMouseMove.
  destruct (negb (Knob.isDragging st)); [discriminate|].
  intros [= <-].
  match goal with |- context [JsMath.max 20 ?m] => set (c := JsMath.max 20 m) end.
  assert (20 <= c <= 5000) as Hc by (apply clamp_within; lra).
  assert (attenuation c = 0.5 + c / 10000) as Hatt.
  { unfold attenuation. rewrite filterEffect_low by lra. lra. }
  rewrite Hatt. repeat split; lra.
Qed.

Lemma cutoff_knob_attenuation_witness :
  let cutoff := JsMath.max 20 (Rmin 5000 (1000 + (100 - 300) / 100 * (5000 - 20))) in
  20 <= cutoff <= 5000
  /\ attenuation cutoff = 0.5 + cutoff / 10000
  /\ 0.502 <= attenuation cutoff <= 1.
Proof.
  intros cutoff.
  apply (cutoff_knob_attenuation 300 (Knob.mkState true 100 1000) cutoff).
  reflexivity.
Defined.

(** * The audio parameters *)

(** With nonnegative attack, decay and release the gain events are scheduled
    in order of time, from the value 0 at [now] to the value 0 at the very
    time the oscillator is told to stop; the note lasts
    [attack + decay + 0.1 + release], at least 0.1 s. *)
Theorem envelope_schedule (a : Adsr) (now : R) :
  0 <= attack a -> 0 <= decay a -> 0 <= release a ->
  StronglySorted Rle (map eventTime (envelope a now))
  /\ hd_error (envelope a now) = Some (SetValueAtTime 0 now)
  /\ last (envelope a now) (SetValueAtTime 0 now)
     = LinearRampToValueAtTime 0 (oscillatorStopTime a now)
  /\ oscillatorStopTime a now - now = attack a + decay a + 0.1 + release a
  /\ now + 0.1 <= oscillatorStopTime a now.
Proof.
  intros Ha Hd Hr. unfold envelope, oscillatorStopTime.
  cbn [map eventTime hd_error last]. repeat split; try lra.
  repeat (apply SSorted_cons;
          [|repeat (apply Forall_cons; [lra|]); apply Forall_nil]).
  apply SSorted_nil.
Qed.

Lemma envelope_schedule_witness :
  let a := mkAdsr 0.7 0.1 0.3 0.7 0.5 in
  StronglySorted Rle (map eventTime (envelope a 10))
  /\ hd_error (envelope a 10) = Some (SetValueAtTime 0 10)
  /\ last (envelope a 10) (SetValueAtTime 0 10)
     = LinearRampToValueAtTime 0 (oscillatorStopTime a 10)
  /\ oscillatorStopTime a 10 - 10 = attack a + decay a + 0.1 + release a
  /\ 10 + 0.1 <= oscillatorStopTime a 10.
Proof.
  intros a.
  apply (envelope_schedule a 10); cbn [a attack decay release]; lra.
Defined.

(** With a nonnegative volume and a sustain level between 0 and 1 (the
    SUSTAIN knob divided by 100), every gain the envelope asks for lies
    between 0 and the volume. *)
Theorem envelope_levels (a : Adsr) (now : R) :
  0 <= volume a -> 0 <= sustain a <= 1 ->
  Forall (fun v => 0 <= v <= volume a) (map eventValue (envelope a now)).
Proof.
  intros Hv Hs. unfold envelope. cbn [map eventValue].
  assert (0 <= volume a * sustain a <= volume a) by nra.
  repeat (apply Forall_cons; [lra|]). apply Forall_nil.
Qed.

Lemma envelope_levels_witness :
  let a := mkAdsr 0.7 0.1 0.3 0.7 0.5 in
  Forall (fun v => 0 <= v <= volume a) (map eventValue (envelope a 10)).
Proof.
  intros a. apply (envelope_levels a 10); cbn [a volume sustain]; lra.
Defined.

(** For REVERB and DELAY settings between 0 and 100 the dry gain lies
    between 0.7 and 1, equal to 1 only when both effects are off, and the
    delay feedback lies between 0 and 0.4. *)
Theorem effect_gains (reverb delay : R) :
  0 <= reverb <= 100 -> 0 <= delay <= 100 ->
  0.7 <= dryGain reverb delay <= 1
  /\ (dryGain reverb delay = 1 <-> reverb = 0 /\ delay = 0)
  /\ 0 <= delayFeedback delay <= 0.4.
Proof.
  intros Hr Hd. unfold dryGain, delayFeedback, JsMath.max, Rmax.
  destruct (Rle_dec (reverb / 100) (delay / 100)); repeat split; lra.
Qed.

Lemma effect_gains_witness :
  0.7 <= dryGain 30 80 <= 1
  /\ (dryGain 30 80 = 1 <-> 30 = 0 /\ 80 = 0)
  /\ 0 <= delayFeedback 80 <= 0.4.
Proof. apply (effect_gains 30 80); lra. Defined.

Lemma Rpower_base_le_1 (x y : R) : 0 < x <= 1 -> 0 <= y -> 0 < Rpower x y <= 1.
Proof.
  intros Hx Hy. split; [apply exp_pos|].
  replace 1 with (Rpower 1 y)
    by (unfold Rpower; rewrite ln_1, Rmult_0_r; apply exp_0).
  apply Rle_Rpower_l; [exact Hy|lra].
Qed.

(** Every sample of the reverb impulse lies in [-1, 1]: for an index [i]
    below the buffer length and a random value in [0, 1) its magnitude is at
    most the decay factor [(1 - i/length)^1.5], which is at most 1 and does
    not grow with [i]. *)
Theorem impulse_sample_bounded (rnd bufferLength : R) (i j : nat) :
  0 <= rnd < 1 ->
  INR i <= INR j < bufferLength ->
  let env k := Rpower (1 - INR k / bufferLength) 1.5 in
  Rabs (impulseSample rnd i bufferLength) <= env i
  /\ env j <= env i <= 1
  /\ -1 <= impulseSample rnd i bufferLength <= 1.
Proof.
  intros Hrnd [Hij Hj] env.
  pose proof (pos_INR i) as Hi0.
  assert (0 < bufferLength) as Hlen by (pose proof (pos_INR j); lra).
  assert (forall k, INR k < bufferLength -> 0 < 1 - INR k / bufferLength <= 1)
    as Hbase.
  { intros k Hk. pose proof (pos_INR k) as Hk0.
    assert (0 <= INR k / bufferLength < 1).
    { split.
      - apply Rmult_le_pos; [exact Hk0|]. left. now apply Rinv_0_lt_compat.
      - apply Rmult_lt_reg_r with bufferLength; [exact Hlen|].
        unfold Rdiv. rewrite Rmult_assoc, Rinv_l by lra. lra. }
    lra. }
  assert (0 < env i <= 1) as Hei
      by (apply Rpower_base_le_1; [apply Hbase|]; lra).
  assert (Rabs (impulseSample rnd i bufferLength) <= env i) as Habs.
  { unfold impulseSample. fold (env i). rewrite Rabs_mult.
    rewrite (Rabs_pos_eq (env i)) by lra.
    assert (Rabs (rnd * 2 - 1) <= 1) by (apply Rabs_le; lra).
    nra. }
  split; [exact Habs|]. split.
  - split; [|lra]. unfold env. apply Rle_Rpower_l; [lra|].
    split; [apply Hbase; lra|].
    assert (INR i / bufferLength <= INR j / bufferLength).
    { apply Rmult_le_compat_r; [left; now apply Rinv_0_lt_compat|exact Hij]. }
    lra.
  - revert Habs. unfold Rabs. destruct (Rcase_abs _); lra.
Qed.

Lemma impulse_sample_bounded_witness :
  let env k := Rpower (1 - INR k / 88200) 1.5 in
  Rabs (impulseSample 0.25 3 88200) <= env 3%nat
  /\ env 5%nat <= env 3%nat <= 1
  /\ -1 <= impulseSample 0.25 3 88200 <= 1.
Proof.
  apply (impulse_sample_bounded 0.25 88200 3 5).
  - lra.
  - cbn [INR]. lra.
Defined.

(** * Notes and keys *)

Section MapFacts.

Context {V : Type}.
Implicit Types (m : list (string * V)) (k : string).

Lemma mapHas_mapSet m k k' (v : V) :
  mapHas k' (mapSet k v m) = (String.eqb k k' || mapHas k' m)%bool.
Proof.
  induction m as [|[k0 v0] m IH]; cbn [mapSet mapHas existsb fst].
  - now rewrite orb_false_r.
  - destruct (String.eqb_spec k0 k) as [->|Hne];
      cbn [mapHas existsb fst].
    + destruct (String.eqb k k'); reflexivity.
    + fold (mapHas k' (mapSet k v m)). rewrite IH. fold (mapHas k' m).
      destruct (String.eqb k0 k'), (String.eqb k k'); reflexivity.
Qed.

Lemma mapHas_mapDelete m k k' :
  mapHas k' (mapDelete k m) = (negb (String.eqb k k') && mapHas k' m)%bool.
Proof.
  induction m as [|[k0 v0] m IH]; cbn [mapDelete mapHas filter existsb fst].
  - now rewrite andb_false_r.
  - fold (mapDelete k m). fold (mapHas k' m).
    destruct (String.eqb_spec k0 k) as [->|Hne]; cbn [negb existsb fst].
    + fold (mapHas k' (mapDelete k m)). rewrite IH.
      destruct (String.eqb k k'); reflexivity.
    + fold (mapHas k' (mapDelete k m)). rewrite IH.
      destruct (String.eqb_spec k0 k') as [->|Hne'].
      * destruct (String.eqb_spec k k') as [->|_]; [contradiction|reflexivity].
      * reflexivity.
Qed.

Lemma mapDelete_absent m k : mapHas k m = false -> mapDelete k m = m.
Proof.
  induction m as [|[k0 v0] m IH]; [reflexivity|].
  cbn [mapHas existsb fst mapDelete filter]. intros Habs.
  apply orb_false_elim in Habs as [Hk Hm].
  rewrite Hk. cbn [negb]. f_equal. now apply IH.
Qed.

Lemma mapDelete_mapSet m k (v : V) :
  mapHas k m = false -> mapDelete k (mapSet k v m) = m.
Proof.
  induction m as [|[k0 v0] m IH]; cbn [mapHas existsb fst mapSet].
  - intros _. cbn [mapDelete filter fst]. now rewrite String.eqb_refl.
  - intros Habs. apply orb_false_elim in Habs as [Hk Hm]. rewrite Hk.
    cbn [mapDelete filter fst]. rewrite Hk. cbn [negb].
    f_equal. now apply IH.
Qed.

Lemma mapGet_mapSet m k (v : V) : mapGet k (mapSet k v m) = Some v.
Proof.
  unfold mapGet. induction m as [|[k0 v0] m IH]; cbn [mapSet find fst].
  - now rewrite String.eqb_refl.
  - destruct (String.eqb k0 k) eqn:Hk; cbn [find fst].
    + now rewrite String.eqb_refl.
    + rewrite Hk. exact IH.
Qed.

Lemma mapGet_absent m k : mapHas k m = false -> mapGet k m = None.
Proof.
  unfold mapGet. induction m as [|[k0 v0] m IH]; [reflexivity|].
  cbn [mapHas existsb fst find]. intros Habs.
  apply orb_false_elim in Habs as [Hk Hm]. rewrite Hk. now apply IH.
Qed.

Lemma Forall_mapSet (P : string * V -> Prop) m k (v : V) :
  P (k, v) -> Forall P m -> Forall P (mapSet k v m).
Proof.
  intros Hkv. induction 1 as [|[k0 v0] m H0 Hm IH]; cbn [mapSet].
  - apply Forall_cons; [exact Hkv|apply Forall_nil].
  - destruct (String.eqb k0 k); apply Forall_cons; assumption.
Qed.

Lemma Forall_mapDelete (P : string * V -> Prop) m k :
  Forall P m -> Forall P (mapDelete k m).
Proof.
  intros Hm. unfold mapDelete. rewrite Forall_forall in *.
  intros e He. apply filter_In in He. now apply Hm.
Qed.

End MapFacts.

Lemma setHas_setAdd (x y : string) (s : list string) :
  setHas y (setAdd x s) = (String.eqb y x || setHas y s)%bool.
Proof.
  unfold setAdd. destruct (setHas x s) eqn:Hx.
  - destruct (String.eqb_spec y x) as [->|_]; [now rewrite Hx|reflexivity].
  - unfold setHas. rewrite existsb_app. cbn [existsb].
    rewrite orb_false_r. apply orb_comm.
Qed.

Lemma setHas_setDelete (x y : string) (s : list string) :
  setHas y (setDelete x s) = (negb (String.eqb y x) && setHas y s)%bool.
Proof.
  unfold setHas, setDelete.
  induction s as [|z s IH]; cbn [filter existsb].
  - now rewrite andb_false_r.
  - destruct (String.eqb_spec z x) as [->|Hne]; cbn [negb existsb].
    + rewrite IH. destruct (String.eqb y x); reflexivity.
    + rewrite IH. destruct (String.eqb_spec y z) as [->|_].
      * destruct (String.eqb_spec z x); [contradiction|reflexivity].
      * reflexivity.
Qed.

Lemma setDelete_setAdd (x : string) (s : list string) :
  setHas x s = false -> setDelete x (setAdd x s) = s.
Proof.
  intros Hx. unfold setAdd. rewrite Hx. unfold setDelete.
  rewrite filter_app. cbn [filter]. rewrite String.eqb_refl. cbn [negb].
  rewrite app_nil_r.
  unfold setHas in Hx. induction s as [|z s IH]; [reflexivity|].
  cbn [existsb] in Hx. apply orb_false_elim in Hx as [Hz Hs].
  cbn [filter]. rewrite String.eqb_sym, Hz. cbn [negb]. f_equal. now apply IH.
Qed.

(** ** The two keyboards *)

Lemma keyMap_of_notes :
  map (fun k => (toLowerCase (nkKey k), (nkNote k, nkFreq k))) notes = keyMap.
Proof. reflexivity. Qed.

Lemma keyMap_lookup (k : NoteKey) :
  In k notes ->
  (isAscii (nkKey k) = true
   /\ keyMapAt (toLowerCase (nkKey k)) = OwnEntry (nkNote k) (nkFreq k))
  /\ (isAscii (toLowerCase (nkKey k)) = true
      /\ keyMapAt (toLowerCase (toLowerCase (nkKey k)))
         = OwnEntry (nkNote k) (nkFreq k)).
Proof.
  intros Hk. unfold notes in Hk.
  repeat (destruct Hk as [<-|Hk]; [repeat split|]). destruct Hk.
Qed.

Lemma handleKeyPress_pressed (note : string) (f : R) (s : Synth) :
  setHas note (pressedKeys s) = true -> handleKeyPress note f s = s.
Proof. intros Hp. unfold handleKeyPress. now rewrite Hp. Qed.

(** Typing the letter printed on an on-screen key, in upper or lower case,
    does what pressing that key with the mouse does, and letting the letter
    go does what releasing the key does: same note, same frequency. *)
Theorem letter_acts_as_screen_key (k : NoteKey) (s : Synth) :
  In k notes ->
  handleKeyDown (nkKey k) s = Some (handleKeyPress (nkNote k) (nkFreq k) s)
  /\ handleKeyDown (toLowerCase (nkKey k)) s
     = Some (handleKeyPress (nkNote k) (nkFreq k) s)
  /\ handleKeyUp (nkKey k) s = Some (handleKeyRelease (nkNote k) s)
  /\ handleKeyUp (toLowerCase (nkKey k)) s
     = Some (handleKeyRelease (nkNote k) s).
Proof.
  intros Hk. destruct (keyMap_lookup k Hk) as [[A1 H1] [A2 H2]].
  unfold handleKeyDown, handleKeyUp. cbv zeta.
  rewrite A1, A2, H1, H2. cbn [negb].
  destruct (setHas (nkNote k) (pressedKeys s)) eqn:Hp; cbn [negb];
    rewrite ?(handleKeyPress_pressed _ _ _ Hp); repeat split.
Qed.

Lemma letter_acts_as_screen_key_witness :
  let k := mkNoteKey "A4" 440.00 "H" false in
  let s := initialSynth true in
  handleKeyDown (nkKey k) s = Some (handleKeyPress (nkNote k) (nkFreq k) s)
  /\ handleKeyDown (toLowerCase (nkKey k)) s
     = Some (handleKeyPress (nkNote k) (nkFreq k) s)
  /\ handleKeyUp (nkKey k) s = Some (handleKeyRelease (nkNote k) s)
  /\ handleKeyUp (toLowerCase (nkKey k)) s
     = Some (handleKeyRelease (nkNote k) s).
Proof.
  intros k s. apply (letter_acts_as_screen_key k s).
  unfold notes, k. do 9 right. left. reflexivity.
Defined.

Lemma mapGet_not_in (V : Type) (k : string) (m : list (string * V)) :
  ~ In k (map fst m) -> mapGet k m = None.
Proof.
  intros Hk. apply mapGet_absent. unfold mapHas.
  destruct (existsb _ m) eqn:He; [|reflexivity].
  apply existsb_exists in He as (e & Hin & Heq).
  apply String.eqb_eq in Heq. contradiction Hk. rewrite <- Heq.
  now apply in_map.
Qed.

Lemma keyMapAt_no_property (key : string) :
  ~ In key (map fst keyMap) -> ~ In key inheritedNames ->
  keyMapAt key = NoProperty.
Proof.
  intros Hown Hinh. unfold keyMapAt. rewrite (mapGet_not_in _ _ _ Hown).
  destruct (existsb _ inheritedNames) eqn:He; [|reflexivity].
  apply existsb_exists in He as (n & Hin & Heq).
  apply String.eqb_eq in Heq. subst n. contradiction.
Qed.

(** A key name made of ASCII characters whose lower-cased form is neither
    one of the thirteen letters of [keyMap] nor the name of a property the
    object inherits ([constructor], [__proto__], ...) changes nothing, going
    down or up. *)
Theorem unmapped_key_ignored (eKey : string) (s : Synth) :
  isAscii eKey = true ->
  ~ In (toLowerCase eKey) (map fst keyMap) ->
  ~ In (toLowerCase eKey) inheritedNames ->
  handleKeyDown eKey s = Some s /\ handleKeyUp eKey s = Some s.
Proof.
  intros Hascii Hown Hinh. unfold handleKeyDown, handleKeyUp. cbv zeta.
  rewrite Hascii, (keyMapAt_no_property _ Hown Hinh). split; reflexivity.
Qed.

Lemma unmapped_key_ignored_witness :
  handleKeyDown "Enter" (initialSynth true) = Some (initialSynth true)
  /\ handleKeyUp "Enter" (initialSynth true) = Some (initialSynth true).
Proof.
  apply (unmapped_key_ignored "Enter" (initialSynth true)).
  - reflexivity.
  - cbn. intros H.
    repeat (destruct H as [H|H]; [discriminate H|]). exact H.
  - cbn. intros H.
    repeat (destruct H as [H|H]; [discriminate H|]). exact H.
Defined.

(** ** Pressing and releasing *)

Ltac synth_simpl :=
  cbn [withPressedKeys withActiveNotes host pressedKeys audioContextRef
       oscillatorsRef gainNodesRef nextNode activeNotesVersion
       activeNotesRef].

Lemma playNote_pressedKeys (f : R) (note : string) (s : Synth) :
  pressedKeys (playNote f note s) = pressedKeys s.
Proof. unfold playNote. destruct (negb (audioContextRef s)); reflexivity. Qed.

(** A key that is down is not triggered again: a second press, with any
    frequency, creates no node and changes no map. *)
Theorem held_key_not_retriggered (note : string) (f1 f2 : R) (s : Synth) :
  handleKeyPress note f2 (handleKeyPress note f1 s) = handleKeyPress note f1 s.
Proof.
  apply handleKeyPress_pressed.
  unfold handleKeyPress at 1. destruct (setHas note (pressedKeys s)) eqn:Hp.
  - exact Hp.
  - rewrite playNote_pressedKeys. cbn [withPressedKeys pressedKeys].
    rewrite setHas_setAdd, String.eqb_refl. reflexivity.
Qed.

(** Pressing a key that is up and releasing it restores [pressedKeys] and
    [activeNotesRef] and bumps the version twice; the oscillator of the
    press stays in [oscillatorsRef], where [onended] will find it. *)
Theorem press_release_round_trip (note : string) (f : R) (s : Synth) :
  audioContextRef s = true ->
  setHas note (pressedKeys s) = false ->
  mapHas note (activeNotesRef (host s)) = false ->
  let s' := handleKeyRelease note (handleKeyPress note f s) in
  pressedKeys s' = pressedKeys s
  /\ activeNotesRef (host s') = activeNotesRef (host s)
  /\ activeNotesVersion s' = S (S (activeNotesVersion s))
  /\ mapGet note (oscillatorsRef s') = Some (nextNode s).
Proof.
  intros Hctx Hup Habs s'. subst s'.
  unfold handleKeyPress. rewrite Hup.
  unfold playNote. synth_simpl. rewrite Hctx. cbn [negb].
  unfold handleKeyRelease. synth_simpl.
  rewrite setHas_setAdd, String.eqb_refl. cbn [orb negb].
  unfold stopNote. synth_simpl.
  rewrite mapHas_mapSet, String.eqb_refl. cbn [orb]. synth_simpl.
  rewrite (setDelete_setAdd _ _ Hup), (mapDelete_mapSet _ _ _ Habs),
    mapGet_mapSet.
  repeat split.
Qed.

Lemma press_release_round_trip_witness :
  let s := initialSynth true in
  let s' := handleKeyRelease "A4" (handleKeyPress "A4" 440 s) in
  pressedKeys s' = pressedKeys s
  /\ activeNotesRef (host s') = activeNotesRef (host s)
  /\ activeNotesVersion s' = S (S (activeNotesVersion s))
  /\ mapGet "A4" (oscillatorsRef s') = Some (nextNode s).
Proof.
  intros s.
  apply (press_release_round_trip "A4" 440 s); reflexivity.
Defined.

(** When an oscillator ends while its key is still down (the envelope has
    run out), the note leaves the scope and both node maps, the key stays in
    [pressedKeys], and pressing it again does nothing until it is
    released. *)
Theorem ended_note_while_held (note : string) (f : R) (s : Synth) :
  setHas note (pressedKeys s) = true ->
  let s' := onended note s in
  mapHas note (activeNotesRef (host s')) = false
  /\ mapHas note (oscillatorsRef s') = false
  /\ mapHas note (gainNodesRef s') = false
  /\ pressedKeys s' = pressedKeys s
  /\ handleKeyPress note f s' = s'.
Proof.
  intros Hheld s'. subst s'. unfold onended. synth_simpl.
  rewrite !mapHas_mapDelete, String.eqb_refl. cbn [negb andb].
  repeat split. now apply handleKeyPress_pressed.
Qed.

Lemma ended_note_while_held_witness :
  let s := handleKeyPress "A4" 440 (initialSynth true) in
  let s' := onended "A4" s in
  mapHas "A4" (activeNotesRef (host s')) = false
  /\ mapHas "A4" (oscillatorsRef s') = false
  /\ mapHas "A4" (gainNodesRef s') = false
  /\ pressedKeys s' = pressedKeys s
  /\ handleKeyPress "A4" 440 s' = s'.
Proof.
  intros s. apply (ended_note_while_held "A4" 440 s). reflexivity.
Defined.

(** ** What the scope can be shown *)

Lemma keys_mapSet (k : string) (v1 v2 : nat) :
  forall m1 m2 : list (string * nat),
    map fst m1 = map fst m2 ->
    map fst (mapSet k v1 m1) = map fst (mapSet k v2 m2).
Proof.
  induction m1 as [|[k1 x1] m1 IH]; intros [|[k2 x2] m2] Heq;
    try discriminate Heq; [reflexivity|].
  cbn [map fst] in Heq. injection Heq as -> Hrest.
  cbn [mapSet]. destruct (String.eqb k2 k); cbn [map fst].
  - now rewrite Hrest.
  - f_equal. now apply IH.
Qed.

Lemma keys_mapDelete (k : string) :
  forall m1 m2 : list (string * nat),
    map fst m1 = map fst m2 ->
    map fst (mapDelete k m1) = map fst (mapDelete k m2).
Proof.
  induction m1 as [|[k1 x1] m1 IH]; intros [|[k2 x2] m2] Heq;
    try discriminate Heq; [reflexivity|].
  cbn [map fst] in Heq. injection Heq as -> Hrest.
  cbn [mapDelete filter fst]. fold (mapDelete k m1). fold (mapDelete k m2).
  destruct (negb (String.eqb k2 k)); cbn [map fst];
    [f_equal|]; now apply IH.
Qed.

Lemma handleKeyPress_keeps_inv (note : string) (f : R) (s : Synth) :
  NotesInv s -> NotesInv (handleKeyPress note f s).
Proof.
  intros [Hshown Hkeys]. unfold handleKeyPress.
  destruct (setHas note (pressedKeys s)) eqn:Hp; [now split|].
  unfold playNote. synth_simpl.
  destruct (audioContextRef s); cbn [negb]; split; synth_simpl.
  - intros n Hn. rewrite mapHas_mapSet in Hn.
    rewrite setHas_setAdd, mapHas_mapSet, (String.eqb_sym n note).
    destruct (String.eqb note n); [split; reflexivity|].
    cbn [orb] in *. now apply Hshown.
  - now apply keys_mapSet.
  - intros n Hn. destruct (Hshown n Hn) as [H1 H2].
    rewrite setHas_setAdd, H1. split; [apply orb_true_r|exact H2].
  - exact Hkeys.
Qed.

Lemma handleKeyRelease_keeps_inv (note : string) (s : Synth) :
  NotesInv s -> NotesInv (handleKeyRelease note s).
Proof.
  intros [Hshown Hkeys]. unfold handleKeyRelease.
  destruct (setHas note (pressedKeys s)) eqn:Hp; cbn [negb]; [|now split].
  unfold stopNote. synth_simpl.
  destruct (mapHas note (activeNotesRef (host s))) eqn:Hact;
    split; synth_simpl; try exact Hkeys.
  - intros n Hn. rewrite mapHas_mapDelete in Hn.
    apply andb_prop in Hn as [Hne Hn]. destruct (Hshown n Hn) as [H1 H2].
    rewrite setHas_setDelete, H1, (String.eqb_sym n note), Hne.
    split; [reflexivity|exact H2].
  - intros n Hn. destruct (Hshown n Hn) as [H1 H2].
    rewrite setHas_setDelete, H1.
    destruct (String.eqb_spec n note) as [->|_];
      [rewrite Hn in Hact; discriminate|].
    split; [reflexivity|exact H2].
Qed.

Lemma onended_keeps_inv (note : string) (s : Synth) :
  NotesInv s -> NotesInv (onended note s).
Proof.
  intros [Hshown Hkeys]. unfold onended. split; synth_simpl.
  - intros n Hn. rewrite mapHas_mapDelete in Hn. rewrite mapHas_mapDelete.
    apply andb_prop in Hn as [Hne Hn]. destruct (Hshown n Hn) as [H1 H2].
    rewrite Hne, H2. split; [exact H1|reflexivity].
  - now apply keys_mapDelete.
Qed.

Lemma noteStep_keeps_inv (s s' : Synth) (e : NoteEvent) :
  noteStep s e = Some s' -> NotesInv s -> NotesInv s'.
Proof.
  intros Hstep Hinv. destruct e as [eKey|eKey|k|k|note]; cbn [noteStep] in Hstep.
  - unfold handleKeyDown in Hstep. cbv zeta in Hstep.
    destruct (negb (isAscii eKey)); [discriminate|].
    destruct (keyMapAt _) as [note freq| |]; [|discriminate|].
    + destruct (negb _); injection Hstep as <-;
        [now apply handleKeyPress_keeps_inv|exact Hinv].
    + now injection Hstep as <-.
  - unfold handleKeyUp in Hstep. cbv zeta in Hstep.
    destruct (negb (isAscii eKey)); [discriminate|].
    destruct (keyMapAt _) as [note freq| |]; injection Hstep as <-;
      [now apply handleKeyRelease_keeps_inv|exact Hinv|exact Hinv].
  - injection Hstep as <-. now apply handleKeyPress_keeps_inv.
  - injection Hstep as <-. now apply handleKeyRelease_keeps_inv.
  - injection Hstep as <-. now apply onended_keeps_inv.
Qed.

Lemma runNotes_keeps_inv (events : list NoteEvent) :
  forall s s', runNotes events s = Some s' -> NotesInv s -> NotesInv s'.
Proof.
  induction events as [|e es IH]; intros s s' Hrun Hinv; cbn [runNotes] in Hrun.
  - now injection Hrun as <-.
  - destruct (noteStep s e) as [s1|] eqn:Hstep; [|discriminate].
    apply (IH s1 s' Hrun). now apply (noteStep_keeps_inv s s1 e).
Qed.

(** Whatever keys go down and up and whichever oscillators end, in any
    order, every note the scope shows is a key that is held and has a gain
    node for [stopNote] to ramp down, and [oscillatorsRef] and
    [gainNodesRef] hold the same notes.  (The run is one the state
    represents: no key name outside ASCII, no key going down on an inherited
    property name.) *)
Theorem shown_notes_are_held (events : list NoteEvent) (ctx : bool)
    (s : Synth) :
  runNotes events (initialSynth ctx) = Some s ->
  (forall n, mapHas n (activeNotesRef (host s)) = true ->
             setHas n (pressedKeys s) = true
             /\ mapHas n (gainNodesRef s) = true)
  /\ map fst (oscillatorsRef s) = map fst (gainNodesRef s).
Proof.
  intros Hrun. change (NotesInv s).
  apply (runNotes_keeps_inv events (initialSynth ctx) s Hrun).
  split; [|reflexivity]. intros n Hn. discriminate Hn.
Qed.

Lemma shown_notes_are_held_witness :
  let events := [KeyDown "H"; MouseDown (mkNoteKey "C5" 523.25 "K" false);
                 KeyUp "h"; KeyUp "constructor"; Ended "C5"] in
  exists s,
    runNotes events (initialSynth true) = Some s
    /\ (forall n, mapHas n (activeNotesRef (host s)) = true ->
                  setHas n (pressedKeys s) = true
                  /\ mapHas n (gainNodesRef s) = true)
    /\ map fst (oscillatorsRef s) = map fst (gainNodesRef s).
Proof.
  intros events. eexists. split; [reflexivity|].
  apply (shown_notes_are_held events true). reflexivity.
Defined.

(** ** The pitches on the scope *)

Lemma tablePitches_range (e : string * R) :
  In e tablePitches -> 261.63 <= snd e <= 523.25.
Proof.
  unfold tablePitches, notes. cbn [map nkNote nkFreq]. intros He.
  repeat (destruct He as [<-|He]; [cbn [snd]; lra|]). destruct He.
Qed.

Lemma keyMap_in_table (key note : string) (freq : R) :
  keyMapAt key = OwnEntry note freq -> In (note, freq) tablePitches.
Proof.
  unfold keyMapAt, mapGet.
  destruct (find _ keyMap) as [[k0 [n0 f0]]|] eqn:Hf; cbn [option_map snd].
  - intros [= <- <-].
    apply find_some in Hf as [Hin _].
    rewrite <- keyMap_of_notes in Hin.
    apply in_map_iff in Hin as (k & Hk & Hin).
    injection Hk as _ <- <-. unfold tablePitches.
    apply in_map_iff. exists k. split; [reflexivity|exact Hin].
  - destruct (existsb _ inheritedNames); discriminate.
Qed.

Lemma handleKeyPress_keeps_pitches (note : string) (f : R) (s : Synth) :
  In (note, f) tablePitches ->
  Forall (fun e => In e tablePitches) (activeNotesRef (host s)) ->
  Forall (fun e => In e tablePitches)
         (activeNotesRef (host (handleKeyPress note f s))).
Proof.
  intros Hin Hall. unfold handleKeyPress.
  destruct (setHas note (pressedKeys s)); [exact Hall|].
  unfold playNote. synth_simpl.
  destruct (audioContextRef s); cbn [negb]; synth_simpl; [|exact Hall].
  now apply Forall_mapSet.
Qed.

Lemma handleKeyRelease_keeps_pitches (note : string) (s : Synth) :
  Forall (fun e => In e tablePitches) (activeNotesRef (host s)) ->
  Forall (fun e => In e tablePitches)
         (activeNotesRef (host (handleKeyRelease note s))).
Proof.
  intros Hall. unfold handleKeyRelease.
  destruct (negb (setHas note (pressedKeys s))); [exact Hall|].
  unfold stopNote. synth_simpl.
  destruct (mapHas note (activeNotesRef (host s))); synth_simpl;
    [now apply Forall_mapDelete|exact Hall].
Qed.

Lemma noteStep_keeps_pitches (s : Synth) (e : NoteEvent) :
  fromKeyboard e ->
  Forall (fun e => In e tablePitches) (activeNotesRef (host s)) ->
  exists s',
    noteStep s e = Some s'
    /\ Forall (fun e => In e tablePitches) (activeNotesRef (host s')).
Proof.
  intros Hfrom Hall. destruct e as [eKey|eKey|k|k|note];
    cbn [noteStep fromKeyboard] in *.
  - destruct Hfrom as [Hascii Hinh].
    unfold handleKeyDown. cbv zeta. rewrite Hascii. cbn [negb].
    destruct (keyMapAt (toLowerCase eKey)) as [note freq| |] eqn:Hget.
    + destruct (negb _); eexists; (split; [reflexivity|]); [|exact Hall].
      apply handleKeyPress_keeps_pitches; [|exact Hall].
      eapply keyMap_in_table, Hget.
    + unfold keyMapAt in Hget. rewrite Hinh in Hget.
      destruct (mapGet _ keyMap) as [[n0 f0]|]; discriminate.
    + eexists. split; [reflexivity|exact Hall].
  - unfold handleKeyUp. cbv zeta. rewrite Hfrom. cbn [negb].
    destruct (keyMapAt (toLowerCase eKey)) as [note freq| |];
      eexists; (split; [reflexivity|]); try exact Hall.
    now apply handleKeyRelease_keeps_pitches.
  - eexists. split; [reflexivity|].
    apply handleKeyPress_keeps_pitches; [|exact Hall].
    unfold tablePitches. apply in_map_iff. exists k. split; [reflexivity|].
    exact Hfrom.
  - eexists. split; [reflexivity|].
    now apply handleKeyRelease_keeps_pitches.
  - eexists. split; [reflexivity|].
    unfold onended. synth_simpl. now apply Forall_mapDelete.
Qed.

Lemma run_keeps_pitches (events : list NoteEvent) :
  Forall fromKeyboard events ->
  forall s,
    Forall (fun e => In e tablePitches) (activeNotesRef (host s)) ->
    exists s',
      runNotes events s = Some s'
      /\ Forall (fun e => In e tablePitches) (activeNotesRef (host s')).
Proof.
  induction 1 as [|e es He _ IH]; intros s Hall; cbn [runNotes].
  - exists s. split; [reflexivity|exact Hall].
  - destruct (noteStep_keeps_pitches s e He Hall) as (s1 & -> & Hall1).
    apply IH, Hall1.
Qed.

(** On the two keyboards, with ASCII key names and no key going down on an
    inherited property name, every run is represented, and every entry of
    [activeNotesRef] it leaves is a note of the keyboard table with the
    frequency the table gives it: every frequency on the scope lies between
    261.63 Hz and 523.25 Hz. *)
Theorem played_pitches_from_table (events : list NoteEvent) (ctx : bool) :
  Forall fromKeyboard events ->
  exists s,
    runNotes events (initialSynth ctx) = Some s
    /\ Forall (fun e => In e tablePitches) (activeNotesRef (host s))
    /\ Forall (fun f => 261.63 <= f <= 523.25) (activeNoteFrequencies (host s)).
Proof.
  intros Hfrom.
  destruct (run_keeps_pitches events Hfrom (initialSynth ctx))
    as (s & Hrun & Hall); [apply Forall_nil|].
  exists s. split; [exact Hrun|]. split; [exact Hall|].
  unfold activeNoteFrequencies. rewrite Forall_map.
  eapply Forall_impl; [|exact Hall]. apply tablePitches_range.
Qed.

Lemma played_pitches_from_table_witness :
  let events := [KeyDown "h"; MouseDown (mkNoteKey "C5" 523.25 "K" false);
                 KeyUp "H"; Ended "C5"] in
  exists s,
    runNotes events (initialSynth true) = Some s
    /\ Forall (fun e => In e tablePitches) (activeNotesRef (host s))
    /\ Forall (fun f => 261.63 <= f <= 523.25) (activeNoteFrequencies (host s)).
Proof.
  intros events.
  apply (played_pitches_from_table events true).
  unfold events, notes.
  apply Forall_cons; [split; reflexivity|].
  apply Forall_cons; [cbn [fromKeyboard]; do 12 right; left; reflexivity|].
  apply Forall_cons; [reflexivity|]. apply Forall_cons; [exact I|].
  apply Forall_nil.
Defined.

(** On the two keyboards, with ASCII key names and no key going down on an
    inherited property name, and with a nonnegative clock and cutoff, the
    frame the scope draws after the run, blank or not, plots nothing outside
    the canvas. *)
Theorem played_frames_on_canvas (events : list NoteEvent) (ctx : bool)
    (p : Props) (time : R) :
  Forall fromKeyboard events ->
  0 <= time ->
  0 <= filterCutoff p ->
  exists s,
    runNotes events (initialSynth ctx) = Some s
    /\ Forall (onCanvas (canvasWidth (host s)) (canvasHeight (host s)))
              (frame p time (host s)).
Proof.
  intros Hfrom Ht Hc.
  destruct (run_keeps_pitches events Hfrom (initialSynth ctx))
    as (s & Hrun & Hall); [apply Forall_nil|].
  exists s. split; [exact Hrun|]. set (h := host s) in *.
  destruct (activeNotesRef h) as [|n ns] eqn:Hnotes.
  - rewrite (frame_idle p time h Hnotes). unfold blankCommands.
    repeat (apply Forall_cons; [split; apply Forall_nil|]). apply Forall_nil.
  - assert (activeNotesRef h <> []) as Hact by (rewrite Hnotes; discriminate).
    rewrite (frame_active p time h Hact).
    apply Forall_cons; [split; apply Forall_nil|].
    apply trace_on_canvas, smoothed_unit.
    + unfold synthesize. apply rawBuffer_length.
    + apply synthesize_unit; try assumption.
      * now apply activeNoteFrequencies_nonempty.
      * unfold activeNoteFrequencies. rewrite Forall_map, Hnotes.
        eapply Forall_impl; [|exact Hall].
        intros e He. apply tablePitches_range in He. lra.
Qed.

Lemma played_frames_on_canvas_witness :
  let events := [KeyDown "a"; KeyDown "d"; KeyUp "a"] in
  exists s,
    runNotes events (initialSynth true) = Some s
    /\ Forall (onCanvas (canvasWidth (host s)) (canvasHeight (host s)))
              (frame initialProps 5 (host s)).
Proof.
  intros events.
  apply (played_frames_on_canvas events true initialProps 5).
  - unfold events.
    apply Forall_cons; [split; reflexivity|].
    apply Forall_cons; [split; reflexivity|].
    apply Forall_cons; [reflexivity|]. apply Forall_nil.
  - lra.
  - cbn [filterCutoff initialProps]. lra.
Defined.
